(** * Moonfall scene: seeded noise, rock displacement, waterfall particles
      and the export capture pipeline

    A shallow embedding of [src/app/page.tsx] (the [SceneCanvas] module).

    Conventions of the embedding:
    - a JavaScript number that the code only uses as a 32-bit integer is a
      [Z], with [ToInt32]/[ToUint32] wrap-around written out;
    - every other JavaScript number is an exact rational [Q]: rounding of
      IEEE doubles is not modelled, copies of a number are Leibniz-equal.
      Statements over [Q] are kept to those that rounding preserves (which
      expression is computed and stored, closed bounds that rounding cannot
      cross, what is left untouched); where the order of neighbouring
      doubles matters, as for the scale of a droplet, the expression is
      also given in binary64 ([float]) and evaluated there;
    - objects mutated in place (the closure variable of the random
      generator, the renderer, the camera, the position buffer, the React
      state cell) are threaded explicitly through the functions that
      touch them;
    - code that is not part of the repository (simplex-noise, the normals
      of three.js, the canvas encoder, [Math.random], the clock, the
      trigonometric functions) enters as parameters of the definitions
      that call it. *)

From Stdlib Require Import ZArith QArith Qabs Qminmax Qround Lqa Lia String Floats.
From stdpp Require Import base list gmap strings pretty.

Local Open Scope Z_scope.

(** ** 32-bit integer operators of JavaScript *)

Module Int32.

(** [ToInt32]: wrap into [-2^31, 2^31). *)
Definition toInt32 (z : Z) : Z := (z + 2 ^ 31) mod 2 ^ 32 - 2 ^ 31.

(** [ToUint32]: wrap into [0, 2^32). *)
Definition toUint32 (z : Z) : Z := z mod 2 ^ 32.

(** [a | b] *)
Definition or (a b : Z) : Z := toInt32 (Z.lor (toInt32 a) (toInt32 b)).

(** [a ^ b] *)
Definition xor (a b : Z) : Z := toInt32 (Z.lxor (toInt32 a) (toInt32 b)).

(** [a >>> n] *)
Definition ushr (a n : Z) : Z := Z.shiftr (toUint32 a) (n mod 32).

(** [Math.imul(a, b)] *)
Definition imul (a b : Z) : Z := toInt32 (toInt32 a * toInt32 b).

End Int32.

(** ** [createSeededRandom] *)

(** One call of the closure returned by [createSeededRandom]: the argument
    is the current value of the captured variable [seed], the result is the
    returned number and the value [seed] holds afterwards. *)
Definition seededNext (seed : Z) : Q * Z :=
  let seed := Int32.or seed 0 in
  let seed := Int32.or (seed + 0x6d2b79f5) 0 in
  let t := Int32.imul (Int32.xor seed (Int32.ushr seed 15)) (Int32.or 1 seed) in
  let t := Int32.xor (t + Int32.imul (Int32.xor t (Int32.ushr t 7)) (Int32.or 61 t)) t in
  ((inject_Z (Int32.ushr (Int32.xor t (Int32.ushr t 14)) 0) / 4294967296)%Q, seed).

(** Calling a stateful function [n] times in a row: the values returned,
    and the state left behind. *)
Fixpoint iterCalls {S A : Type} (call : S -> A * S) (s : S) (n : nat) : list A * S :=
  match n with
  | O => ([], s)
  | S n' =>
      let '(rest, s') := iterCalls call (snd (call s)) n' in
      (fst (call s) :: rest, s')
  end.

(** The first [n] numbers a generator yields when its variable starts at
    [seed], and the value of the variable after these calls. *)
Definition seededStream (seed : Z) (n : nat) : list Q :=
  fst (iterCalls seededNext seed n).

Definition seededState (seed : Z) (n : nat) : Z :=
  snd (iterCalls seededNext seed n).

(** Closures live in a heap: every call of [createSeededRandom] allocates a
    fresh cell for its own copy of [seed]; the returned function is named
    by the address of that cell. *)
Definition createSeededRandom (seed : Z) (h : gmap nat Z) : nat * gmap nat Z :=
  let g := fresh (dom h) in (g, <[g := seed]> h).

(** Calling generator [g]: reads and writes only its own cell. *)
Definition callRandom (g : nat) (h : gmap nat Z) : option (Q * gmap nat Z) :=
  match h !! g with
  | Some seed => let '(x, seed') := seededNext seed in Some (x, <[g := seed']> h)
  | None => None
  end.

(** A schedule is the order in which generators are called; the run
    records who was called and what came back. *)
Fixpoint runCalls (sched : list nat) (h : gmap nat Z)
  : option (list (nat * Q) * gmap nat Z) :=
  match sched with
  | [] => Some ([], h)
  | g :: rest =>
      match callRandom g h with
      | Some (x, h') =>
          match runCalls rest h' with
          | Some (out, h'') => Some ((g, x) :: out, h'')
          | None => None
          end
      | None => None
      end
  end.

(** The numbers generator [g] returned during a run, in call order. *)
Definition outputsOf (g : nat) (out : list (nat * Q)) : list Q :=
  snd <$> filter (fun p => fst p = g) out.

(** How often [g] occurs in a schedule. *)
Definition callsOf `{EqDecision A} (g : A) (sched : list A) : nat :=
  length (filter (fun g' => g' = g) sched).

(** ** The noise field (simplex-noise, outside the repository)

    [createNoise3D(random)] draws from [random] while it builds its
    permutation table and returns a sampler that never calls [random]
    again.  The library enters through two parameters: how many numbers it
    draws, and the sampler as a function of the numbers drawn. *)

Definition createNoise3D (tableDraws : nat) (noise3D : list Q -> Q -> Q -> Q -> Q)
    (g : nat) (h : gmap nat Z) : option ((Q -> Q -> Q -> Q) * gmap nat Z) :=
  match runCalls (replicate tableDraws g) h with
  | Some (out, h') => Some (noise3D (outputsOf g out), h')
  | None => None
  end.

(** ** Rock: displacement of the lathe mesh *)

Record Vector3 := mkVector3 { vx : Q; vy : Q; vz : Q }.

Definition multiplyScalar (v : Vector3) (s : Q) : Vector3 :=
  {| vx := vx v * s; vy := vy v * s; vz := vz v * s |}%Q.

(** The part of a three.js [BufferGeometry] the rock code reaches: the
    position attribute (one entry per vertex), the triangle index and the
    normal attribute. *)
Record BufferGeometry := mkGeometry {
  position : list Vector3;
  index : list nat;
  normal : list Vector3
}.

(** [const displacement = 1 + noiseValue * 0.55 + Math.pow(Math.abs(ridge), 3) * 0.3] *)
Definition displacement (noise : Q -> Q -> Q -> Q) (temp : Vector3) : Q :=
  (let noiseValue := noise (vx temp * 0.65) (vy temp * 0.8) (vz temp * 0.65) in
   let ridge := noise (vx temp * 1.2) (vy temp * 0.4) (vz temp * 1.4) in
   1 + noiseValue * 0.55 + Qabs ridge ^ 3 * 0.3)%Q.

(** Body of the [for] loop at index [i]: [temp.fromBufferAttribute(pos, i)],
    scale, [pos.setXYZ(i, ...)]. *)
Definition displaceVertex (noise : Q -> Q -> Q -> Q) (pos : list Vector3) (i : nat)
  : list Vector3 :=
  match pos !! i with
  | Some temp => <[i := multiplyScalar temp (displacement noise temp)]> pos
  | None => pos
  end.

(** [for (let i = 0; i < pos.count; i += 1) { ... }] *)
Definition displaceAll (noise : Q -> Q -> Q -> Q) (pos : list Vector3) : list Vector3 :=
  foldl (displaceVertex noise) pos (seq 0 (length pos)).

(** [geo.computeVertexNormals()] of three.js: overwrites the normal
    attribute with normals derived from the current positions and index. *)
Definition computeVertexNormals (vertexNormals : list Vector3 -> list nat -> list Vector3)
    (geo : BufferGeometry) : BufferGeometry :=
  {| position := position geo;
     index := index geo;
     normal := vertexNormals (position geo) (index geo) |}.

(** The [useMemo] factory of [Rock], applied to the freshly built lathe
    geometry; the generator is created on heap [h] with seed 1337. *)
Definition rockGeometry (tableDraws : nat) (noise3D : list Q -> Q -> Q -> Q -> Q)
    (vertexNormals : list Vector3 -> list nat -> list Vector3)
    (lathe : BufferGeometry) (h : gmap nat Z) : option BufferGeometry :=
  let '(g, h1) := createSeededRandom 1337 h in
  match createNoise3D tableDraws noise3D g h1 with
  | Some (noise, _) =>
      let geo := {| position := displaceAll noise (position lathe);
                    index := index lathe;
                    normal := normal lathe |} in
      Some (computeVertexNormals vertexNormals geo)
  | None => None
  end.

(** The [Rock] component over its life: the [useMemo] cell (dependency
    list [[]], so filled by the first render and reused afterwards) and
    the mesh rotation advanced by [useFrame]. *)
Record RockState := mkRock {
  rockMemo : option BufferGeometry;
  rockMounted : bool;
  rockRotationY : Q
}.

Inductive RockEvent :=
| RockRender
| RockFrame (delta : Q).

Definition rockStep (build : option BufferGeometry) (st : RockState) (e : RockEvent)
  : RockState :=
  match e with
  | RockRender =>
      match rockMemo st with
      | Some _ => {| rockMemo := rockMemo st; rockMounted := true;
                     rockRotationY := rockRotationY st |}
      | None => {| rockMemo := build; rockMounted := true;
                   rockRotationY := rockRotationY st |}
      end
  | RockFrame delta =>
      if rockMounted st
      then {| rockMemo := rockMemo st; rockMounted := true;
              rockRotationY := (rockRotationY st + delta * 0.05)%Q |}
      else st
  end.

Definition rockRun (build : option BufferGeometry) (st : RockState)
    (es : list RockEvent) : RockState :=
  foldl (rockStep build) st es.



(** The position a vertex is moved to. *)
Definition displaced (noise : Q -> Q -> Q -> Q) (v : Vector3) : Vector3 :=
  multiplyScalar v (displacement noise v).

Definition hasRender (es : list RockEvent) : bool :=
  existsb (fun e => match e with RockRender => true | RockFrame _ => false end) es.

(** ** Particles *)

Definition EXPORT_WIDTH : Q := 3200.
Definition EXPORT_HEIGHT : Q := 4000.
Definition WATERFALL_PARTICLES : nat := 900.
Definition SPRAY_PARTICLES : nat := 180.

(** The remainder operator [n % d] on numbers: the sign follows the
    dividend, [n - d * trunc (n / d)]. *)
Definition Qtrunc (q : Q) : Z := Z.quot (Qnum q) (Zpos (Qden q)).

Definition jsRem (n d : Q) : Q := (n - d * inject_Z (Qtrunc (n / d)))%Q.

(** [MathUtils.lerp(x, y, t)] *)
Definition lerp (x y t : Q) : Q := ((1 - t) * x + t * y)%Q.

(** [MathUtils.clamp(value, min, max)] *)
Definition clamp (value lo hi : Q) : Q := Qmax lo (Qmin hi value).

(** [MathUtils.randFloatSpread(range)], given the number its call of
    [Math.random()] returns. *)
Definition randFloatSpread (range r : Q) : Q := (range * (0.5 - r))%Q.

(** [Math.sin], [Math.cos] and [Math.PI]. *)
Record Trig := mkTrig { sin : Q -> Q; cos : Q -> Q; PI : Q }.

(** [Vector3.lerpVectors(v1, v2, alpha)] *)
Definition lerpVectors (v1 v2 : Vector3) (alpha : Q) : Vector3 :=
  {| vx := vx v1 + (vx v2 - vx v1) * alpha;
     vy := vy v1 + (vy v2 - vy v1) * alpha;
     vz := vz v1 + (vz v2 - vz v1) * alpha |}%Q.

Definition flowPosition (m : Trig) (progress jitter : Q) : Vector3 :=
  (let p := clamp progress 0 1 in
   let start := mkVector3 0.16 3.54 0.46 in
   let end_ := mkVector3 (-0.3 + jitter * 0.12) (-1.4 - jitter * 0.5) (-0.3 + jitter * 0.18) in
   let curveHeight := 1.8 + sin m (p * PI m) * 0.6 in
   let pos := lerpVectors start end_ p in
   {| vx := vx pos + sin m (p * PI m * 1.2 + jitter * 4.2) * 0.18;
      vy := vy pos + sin m (p * PI m) * curveHeight;
      vz := vz pos + cos m (p * PI m * 1.6 + jitter * 3.6) * 0.1 |})%Q.

Record Particle := mkParticle { offset : Q; speed : Q; jitter : Q }.

(** What [dummy.updateMatrix()] composes and [setMatrixAt] stores. *)
Record Transform := mkTransform {
  tPosition : Vector3;
  tScale : Q;
  tRotation : Vector3
}.

(** [Math.random] is an ambient source: [rnd k] is the number its [k]-th
    call returns, and every function that calls it threads the call
    counter. *)
Definition newDroplet (rnd : nat -> Q) (k : nat) : Particle * nat :=
  ({| offset := rnd k;
      speed := 0.18 + rnd (k + 1)%nat * 0.32;
      jitter := randFloatSpread 0.65 (rnd (k + 2)%nat) |}%Q, (k + 3)%nat).

(** [Array.from({ length }, f)] for a callback that consumes the counter. *)
Fixpoint arrayFrom {A} (len : nat) (f : nat -> A * nat) (k : nat) : list A * nat :=
  match len with
  | O => ([], k)
  | S len' =>
      let '(a, k1) := f k in
      let '(rest, k2) := arrayFrom len' f k1 in
      (a :: rest, k2)
  end.

Definition createDroplets (rnd : nat -> Q) (k : nat) : list Particle * nat :=
  arrayFrom WATERFALL_PARTICLES (newDroplet rnd) k.

(** [particle.offset = (particle.offset + delta * particle.speed) % 1] *)
Definition advance (delta : Q) (particle : Particle) : Particle :=
  {| offset := jsRem (offset particle + delta * speed particle) 1;
     speed := speed particle;
     jitter := jitter particle |}.

(** [MathUtils.lerp(0.05, 0.28, 1 - Math.pow(1 - particle.offset, 2))] *)
Definition waterfallScale (progress : Q) : Q :=
  lerp 0.05 0.28 (1 - (1 - progress) ^ 2)%Q.











Definition dropletTransform (m : Trig) (particle : Particle) : Transform :=
  {| tPosition := flowPosition m (offset particle) (jitter particle);
     tScale := waterfallScale (offset particle);
     tRotation :=
       {| vx := sin m (offset particle * PI m * 2 + jitter particle) * 0.4;
          vy := cos m (offset particle * PI m * 1.6 + jitter particle) * 0.25;
          vz := sin m (offset particle * PI m) * 0.3 |}%Q |}.

(** The [Waterfall] component: its particle pool, whether the instanced
    mesh is attached ([meshRef.current]), the instance buffer, and how
    often the buffer was flagged for upload. *)
Record Waterfall := mkWaterfall {
  droplets : list Particle;
  waterMesh : bool;
  waterMatrices : list Transform;
  waterUploads : nat
}.

Definition setMatrixAt (buf : list Transform) (slot : nat * Transform) : list Transform :=
  <[fst slot := snd slot]> buf.

(** The [useFrame] callback of [Waterfall]. *)
Definition waterfallFrame (m : Trig) (delta : Q) (w : Waterfall) : Waterfall :=
  if waterMesh w then
    let moved := advance delta <$> droplets w in
    {| droplets := moved;
       waterMesh := true;
       waterMatrices :=
         foldl setMatrixAt (waterMatrices w) (imap (fun idx p => (idx, dropletTransform m p)) moved);
       waterUploads := S (waterUploads w) |}
  else w.

Definition waterfallRun (m : Trig) (deltas : list Q) (w : Waterfall) : Waterfall :=
  foldl (fun w delta => waterfallFrame m delta w) w deltas.

(** The state [useState] hands to the first frame; an instanced mesh
    starts with the identity in every slot. *)
Definition waterfallInitial (rnd : nat -> Q) (k : nat) (mesh : bool) : Waterfall :=
  {| droplets := fst (createDroplets rnd k);
     waterMesh := mesh;
     waterMatrices := replicate WATERFALL_PARTICLES
                        (mkTransform (mkVector3 0 0 0) 1 (mkVector3 0 0 0));
     waterUploads := 0 |}.

Record SprayParticle := mkSpray {
  baseTheta : Q;
  radius : Q;
  spraySpeed : Q;
  height : Q;
  sprayJitter : Q
}.

Definition newSprayParticle (m : Trig) (rnd : nat -> Q) (k : nat) : SprayParticle * nat :=
  ({| baseTheta := rnd k * PI m * 2;
      radius := 0.05 + rnd (k + 1)%nat * 0.2;
      spraySpeed := 0.6 + rnd (k + 2)%nat * 0.4;
      height := rnd (k + 3)%nat * 0.5;
      sprayJitter := rnd (k + 4)%nat * 2 |}%Q, (k + 5)%nat).

Definition createSpray (m : Trig) (rnd : nat -> Q) (k : nat) : list SprayParticle * nat :=
  arrayFrom SPRAY_PARTICLES (newSprayParticle m rnd) k.

(** One spray particle in the [useFrame] callback of [Spray]; [now] is the
    reading of [performance.now()]. *)
Definition sprayTransform (m : Trig) (now : Q) (particle : SprayParticle) : Transform :=
  (let t := now * 0.0006 in
   let phase := jsRem (t * spraySpeed particle + sprayJitter particle) 1 in
   let radius := radius particle + sin m (phase * PI m) * 0.04 in
   let x := cos m (baseTheta particle) * radius in
   let z := sin m (baseTheta particle) * radius in
   let y := 3.54 + phase * 0.8 + height particle * 0.5 in
   {| tPosition := mkVector3 x y (0.48 + z);
      tScale := 0.04 + phase * 0.08;
      tRotation := mkVector3 (phase * 0.4) (baseTheta particle) (phase * 0.3) |})%Q.

(** The [useFrame] callback of [Spray]: one transform per particle, written
    to the slot of the particle's index, when the mesh is attached. *)
Definition sprayFrame (m : Trig) (now : Q) (mesh : bool)
    (particles : list SprayParticle) (buf : list Transform) : list Transform :=
  if mesh then
    foldl setMatrixAt buf (imap (fun idx p => (idx, sprayTransform m now p)) particles)
  else buf.

(** What every tick keeps true of a particle. *)
Definition particleOk (p : Particle) : Prop :=
  (0 <= offset p < 1 /\ 0.18 <= speed p < 0.5)%Q.

(** ** The capture pipeline *)

(** The fields of three.js' [WebGLRenderer] and of its canvas that
    [capture] reads or writes. *)
Record Renderer := mkRenderer {
  pixelRatio : Q;
  sizeWidth : Q;
  sizeHeight : Q;
  canvasWidth : Z;
  canvasHeight : Z;
  styleWidth : string;
  styleHeight : string
}.

(** [renderer.setSize(width, height, false)]: logical size and drawing
    buffer change, the canvas style is left alone. *)
Definition setSize (width height : Q) (r : Renderer) : Renderer :=
  {| pixelRatio := pixelRatio r;
     sizeWidth := width;
     sizeHeight := height;
     canvasWidth := Qfloor (width * pixelRatio r);
     canvasHeight := Qfloor (height * pixelRatio r);
     styleWidth := styleWidth r;
     styleHeight := styleHeight r |}.

(** [renderer.setPixelRatio(value)]: stores the ratio and resizes the
    drawing buffer through [setSize(_width, _height, false)]. *)
Definition setPixelRatio (value : Q) (r : Renderer) : Renderer :=
  setSize (sizeWidth r) (sizeHeight r)
    {| pixelRatio := value;
       sizeWidth := sizeWidth r;
       sizeHeight := sizeHeight r;
       canvasWidth := canvasWidth r;
       canvasHeight := canvasHeight r;
       styleWidth := styleWidth r;
       styleHeight := styleHeight r |}.

Definition setStyle (w h : string) (r : Renderer) : Renderer :=
  {| pixelRatio := pixelRatio r;
     sizeWidth := sizeWidth r;
     sizeHeight := sizeHeight r;
     canvasWidth := canvasWidth r;
     canvasHeight := canvasHeight r;
     styleWidth := w;
     styleHeight := h |}.

(** The camera: its [aspect] property, and the aspect its projection
    matrix was last computed from (field of view, near, far and zoom are
    never written by this code). *)
Record Camera := mkCamera { aspect : Q; projectionAspect : Q }.

Definition setAspect (a : Q) (c : Camera) : Camera :=
  {| aspect := a; projectionAspect := projectionAspect c |}.

Definition updateProjectionMatrix (c : Camera) : Camera :=
  {| aspect := aspect c; projectionAspect := aspect c |}.

(** What one call of [renderer.render(scene, camera)] draws with. *)
Record Frame := mkFrame {
  framePixelRatio : Q;
  frameWidth : Q;
  frameHeight : Q;
  frameProjection : Q
}.

Record Download := mkDownload { href : string; download : string }.

Record Stage := mkStage {
  renderer : Renderer;
  camera : Camera;
  frames : list Frame;
  downloads : list Download;
  invalidations : nat
}.

(** Statements that may throw: [None] is an exception on its way out, the
    stage is the one reached when it was raised. *)
Definition Eff (A : Type) : Type := Stage -> option A * Stage.

#[export] Instance eff_ret : MRet Eff := fun A a s => (Some a, s).

#[export] Instance eff_bind : MBind Eff := fun A B k c s =>
  match c s with
  | (Some a, s') => k a s'
  | (None, s') => (None, s')
  end.

Definition getStage : Eff Stage := fun s => (Some s, s).

Definition onRenderer (f : Renderer -> Renderer) : Eff unit := fun s =>
  (Some tt, {| renderer := f (renderer s); camera := camera s; frames := frames s;
               downloads := downloads s; invalidations := invalidations s |}).

Definition onCamera (f : Camera -> Camera) : Eff unit := fun s =>
  (Some tt, {| renderer := renderer s; camera := f (camera s); frames := frames s;
               downloads := downloads s; invalidations := invalidations s |}).

Definition render : Eff unit := fun s =>
  (Some tt, {| renderer := renderer s; camera := camera s;
               frames := frames s ++
                 [ {| framePixelRatio := pixelRatio (renderer s);
                      frameWidth := sizeWidth (renderer s);
                      frameHeight := sizeHeight (renderer s);
                      frameProjection := projectionAspect (camera s) |} ];
               downloads := downloads s; invalidations := invalidations s |}).

(** [link.click()] on the anchor that was appended to the body and is
    removed right after. *)
Definition clickLink (d : Download) : Eff unit := fun s =>
  (Some tt, {| renderer := renderer s; camera := camera s; frames := frames s;
               downloads := downloads s ++ [d]; invalidations := invalidations s |}).

Definition invalidate : Eff unit := fun s =>
  (Some tt, {| renderer := renderer s; camera := camera s; frames := frames s;
               downloads := downloads s; invalidations := S (invalidations s) |}).

(** [canvas.toDataURL("image/png", 1)]: the encoder is the browser's; it
    either returns the URL or throws. *)
Definition encode (toDataURL : Stage -> option string) : Eff string := fun s =>
  (toDataURL s, s).

(** The body of the [capture] closure of [CaptureBridge]; [now] is the
    reading of [Date.now()]. *)
Definition capture (toDataURL : Stage -> option string) (now : Z) : Eff unit :=
  s0 ← getStage;
  let originalPixelRatio := pixelRatio (renderer s0) in
  let originalSize := (sizeWidth (renderer s0), sizeHeight (renderer s0)) in
  let originalAspect := aspect (camera s0) in
  let prevStyle := (styleWidth (renderer s0), styleHeight (renderer s0)) in
  onRenderer (setPixelRatio 1);;
  onRenderer (setSize EXPORT_WIDTH EXPORT_HEIGHT);;
  onCamera (setAspect (EXPORT_WIDTH / EXPORT_HEIGHT));;
  onCamera updateProjectionMatrix;;
  render;;
  dataUrl ← encode toDataURL;
  clickLink {| href := dataUrl;
               download := "prime-baby-moonfall-" +:+ pretty now +:+ ".png" |};;
  onRenderer (setPixelRatio originalPixelRatio);;
  onRenderer (setSize (fst originalSize) (snd originalSize));;
  onRenderer (setStyle (fst prevStyle) (snd prevStyle));;
  onCamera (setAspect originalAspect);;
  onCamera updateProjectionMatrix;;
  render;;
  invalidate.

(** The frame drawn for the export, and the frame drawn for the live view
    once the configuration read from [s] is back. *)
Definition exportFrame : Frame :=
  {| framePixelRatio := 1;
     frameWidth := EXPORT_WIDTH;
     frameHeight := EXPORT_HEIGHT;
     frameProjection := EXPORT_WIDTH / EXPORT_HEIGHT |}.

Definition liveFrame (s : Stage) : Frame :=
  {| framePixelRatio := pixelRatio (renderer s);
     frameWidth := sizeWidth (renderer s);
     frameHeight := sizeHeight (renderer s);
     frameProjection := aspect (camera s) |}.

(** The stage [capture] has reached when it calls the encoder. *)
Definition exportStage (s : Stage) : Stage :=
  {| renderer := setSize EXPORT_WIDTH EXPORT_HEIGHT (setPixelRatio 1 (renderer s));
     camera := {| aspect := EXPORT_WIDTH / EXPORT_HEIGHT;
                  projectionAspect := EXPORT_WIDTH / EXPORT_HEIGHT |};
     frames := frames s ++ [exportFrame];
     downloads := downloads s;
     invalidations := invalidations s |}.

(** The stage [capture] leaves when it returns, having read [url] from the
    encoder. *)
Definition restoredStage (now : Z) (url : string) (s : Stage) : Stage :=
  {| renderer :=
       setStyle (styleWidth (renderer s)) (styleHeight (renderer s))
         (setSize (sizeWidth (renderer s)) (sizeHeight (renderer s))
            (setPixelRatio (pixelRatio (renderer s)) (renderer (exportStage s))));
     camera := {| aspect := aspect (camera s); projectionAspect := aspect (camera s) |};
     frames := (frames s ++ [exportFrame]) ++ [liveFrame s];
     downloads := downloads s ++
       [ {| href := url; download := "prime-baby-moonfall-" +:+ pretty now +:+ ".png" |} ];
     invalidations := S (invalidations s) |}.

(** The snapshot [capture] takes on entry. *)
Record Snapshot := mkSnapshot {
  snapPixelRatio : Q;
  snapWidth : Q;
  snapHeight : Q;
  snapStyleWidth : string;
  snapStyleHeight : string;
  snapAspect : Q
}.

Definition snapshot (s : Stage) : Snapshot :=
  {| snapPixelRatio := pixelRatio (renderer s);
     snapWidth := sizeWidth (renderer s);
     snapHeight := sizeHeight (renderer s);
     snapStyleWidth := styleWidth (renderer s);
     snapStyleHeight := styleHeight (renderer s);
     snapAspect := aspect (camera s) |}.

(** ** The export button of [SceneCanvas] *)

(** [captureRef.current] is either [null] or the [capture] closure;
    [isExporting] is the React state cell. *)
Record App := mkApp {
  stage : Stage;
  captureRef : bool;
  isExporting : bool
}.

Definition setIsExporting (b : bool) (a : App) : App :=
  {| stage := stage a; captureRef := captureRef a; isExporting := b |}.

(** A render of the component builds [handleExport] anew; the closure
    holds the value [isExporting] had in that render. *)
Record Handler := mkHandler { seenExporting : bool }.

Definition renderHandler (a : App) : Handler :=
  {| seenExporting := isExporting a |}.

(** Where a call of the async [handleExport] stands when control returns
    to its caller: finished at the guard, or parked at the [await] with
    the outcome of the capture promise ([Some tt] fulfilled, [None]
    rejected). *)
Inductive Suspended :=
| Returned
| Awaiting (outcome : option unit).

(** [handleExport] up to its [await]. The capture closure has no [await]
    of its own, so it runs to its end, or to its throw, inside this call. *)
Definition handleExport (toDataURL : Stage -> option string) (now : Z)
    (hd : Handler) (a : App) : Suspended * App :=
  if negb (captureRef a) || seenExporting hd then (Returned, a)
  else
    let a1 := setIsExporting true a in
    let '(outcome, s') := capture toDataURL now (stage a1) in
    (Awaiting outcome,
     {| stage := s'; captureRef := captureRef a1; isExporting := isExporting a1 |}).

(** The rest of [handleExport], run when the awaited promise settles: the
    [finally] block, then the promise of [handleExport] settles the way
    the capture did. *)
Definition handleExportResume (p : Suspended) (a : App) : option unit * App :=
  match p with
  | Returned => (Some tt, a)
  | Awaiting outcome => (outcome, setIsExporting false a)
  end.

(** Frames drawn at the export configuration. *)
Definition isExportFrame (f : Frame) : bool :=
  Qeq_bool (frameWidth f) EXPORT_WIDTH && Qeq_bool (frameHeight f) EXPORT_HEIGHT
  && Qeq_bool (framePixelRatio f) 1.

Definition exportFrames (s : Stage) : nat :=
  length (filter (fun f => isExportFrame f = true) (frames s)).

(** ** Concrete scenes used to run the definitions *)

(** A live view at pixel density 2, 800 x 600, aspect 4/3. *)
Definition liveStage : Stage :=
  {| renderer := {| pixelRatio := 2; sizeWidth := 800; sizeHeight := 600;
                    canvasWidth := 1600; canvasHeight := 1200;
                    styleWidth := "800px"; styleHeight := "600px" |};
     camera := {| aspect := 4 # 3; projectionAspect := 4 # 3 |};
     frames := [];
     downloads := [];
     invalidations := 0 |}.

Definition idleApp : App :=
  {| stage := liveStage; captureRef := true; isExporting := false |}.

Definition encoderOk : Stage -> option string :=
  fun _ => Some "data:image/png;base64,iVBORw0KGgo=".

Definition encoderThrows : Stage -> option string := fun _ => None.

(** Stand-ins for the trigonometric functions, enough to run a frame. *)
Definition unitTrig : Trig := {| sin := fun _ => 0%Q; cos := fun _ => 1%Q; PI := 3.14159%Q |}.

(** Two readings of the ambient random source: constant 0, constant 1/2,
    and one that agrees with the latter on the first 3600 calls only. *)
Definition randomZero : nat -> Q := fun _ => 0%Q.

Definition randomHalf : nat -> Q := fun _ => (1 # 2)%Q.

Definition randomHalfThenZero : nat -> Q :=
  fun i => if (i <? 3600)%nat then (1 # 2)%Q else 0%Q.

(** The droplet and the spray particle built from the draws that start at
    call [j]. *)
Definition dropletAt (rnd : nat -> Q) (j : nat) : Particle := fst (newDroplet rnd j).

Definition sprayAt (m : Trig) (rnd : nat -> Q) (j : nat) : SprayParticle :=
  fst (newSprayParticle m rnd j).

(** ** Definitions used by the further properties *)

(** Every frame of a run of [Rock] has a non-negative frame time. *)
Definition forwardFrames (es : list RockEvent) : Prop :=
  Forall (fun e => match e with
                   | RockFrame delta => (0 <= delta)%Q
                   | RockRender => True
                   end) es.

(** A small lathe: two rings of two vertices, one vertex on the axis at
    the origin, the seam vertex repeated. *)
Definition sampleLathe : BufferGeometry :=
  {| position := [ mkVector3 0 0 0; mkVector3 1.75 (-2.2) 0; mkVector3 0 (-2.2) 1.75;
                   mkVector3 1.75 (-2.2) 0 ]%Q;
     index := [0; 1; 2; 0; 2; 3]%nat;
     normal := [] |}.

(** A noise field that is 1/2 everywhere, and the normals left empty. *)
Definition flatNoise : list Q -> Q -> Q -> Q -> Q := fun _ _ _ _ => (1 # 2)%Q.

Definition noNormals : list Vector3 -> list nat -> list Vector3 := fun _ _ => [].

(** The identity transform an instanced mesh starts with. *)
Definition identityTransform : Transform :=
  mkTransform (mkVector3 0 0 0) 1 (mkVector3 0 0 0).

(** A pool of two droplets with a buffer of three slots, mesh attached. *)
Definition tinyWaterfall : Waterfall :=
  {| droplets := [ mkParticle 0.25 0.2 0.1; mkParticle 0.9 0.45 (-0.3) ]%Q;
     waterMesh := true;
     waterMatrices := replicate 3 identityTransform;
     waterUploads := 0 |}.

(** The ranges the droplet and spray constants are drawn from. *)
Definition dropletInRange (p : Particle) : Prop :=
  (0 <= offset p < 1 /\ 0.18 <= speed p < 0.5 /\ -0.325 < jitter p <= 0.325)%Q.

Definition sprayInRange (m : Trig) (p : SprayParticle) : Prop :=
  (0 <= baseTheta p <= 2 * PI m /\ 0.05 <= radius p <= 0.25 /\
   0.6 <= spraySpeed p <= 1 /\ 0 <= height p < 0.5 /\ 0 <= sprayJitter p < 2)%Q.

(** The file name [capture] gives the download made at clock reading
    [now]. *)
Definition downloadName (now : Z) : string :=
  "prime-baby-moonfall-" +:+ pretty now +:+ ".png".

(** [handleCaptureBridge]: the bridge hands over its [capture] closure when
    its effect runs ([true]) and [null] when the effect is cleaned up
    ([false]). *)
Definition handleCaptureBridge (capture : bool) (a : App) : App :=
  {| stage := stage a; captureRef := capture; isExporting := isExporting a |}.

(** One press of the export button through handler [hd] at clock reading
    [now], followed to the end of [handleExport]. *)
Definition press (toDataURL : Stage -> option string) (a : App) (p : Handler * Z) : App :=
  let '(parked, a1) := handleExport toDataURL (snd p) (fst p) a in
  snd (handleExportResume parked a1).

Definition pressAll (toDataURL : Stage -> option string) (presses : list (Handler * Z))
    (a : App) : App :=
  foldl (press toDataURL) a presses.

(** A press through the handler of the current render, and a series of
    them, each one after the previous export has finished and the
    component has rendered again. *)
Definition click (toDataURL : Stage -> option string) (a : App) (now : Z) : App :=
  press toDataURL a (renderHandler a, now).

Definition clicks (toDataURL : Stage -> option string) (nows : list Z) (a : App) : App :=
  foldl (click toDataURL) a nows.

(** The [Mist] component: whether its mesh is attached, whether the mesh
    carries an array of materials, and the opacity of its material (0.28
    in the markup). *)
Record Mist := mkMist {
  mistMesh : bool;
  mistMaterialArray : bool;
  mistOpacity : Q
}.

(** The [useFrame] callback of [Mist]; [now] is the reading of
    [performance.now()]. *)
Definition mistFrame (m : Trig) (st : Mist) (now : Q) : Mist :=
  if negb (mistMesh st) then st
  else if mistMaterialArray st then st
  else {| mistMesh := mistMesh st;
          mistMaterialArray := mistMaterialArray st;
          mistOpacity := (0.24 + sin m (now * 0.0006) * 0.04)%Q |}.

Definition mistRun (m : Trig) (nows : list Q) (st : Mist) : Mist :=
  foldl (mistFrame m) st nows.

Definition mistInitial (mesh : bool) : Mist :=
  {| mistMesh := mesh; mistMaterialArray := false; mistOpacity := 0.28 |}.

(** * Properties *)

(** ** The seeded generator *)

Module Int32Facts.
Import Int32.

Lemma toInt32_range z : - 2 ^ 31 <= toInt32 z < 2 ^ 31.
Proof.
  unfold toInt32.
  pose proof (Z.mod_pos_bound (z + 2 ^ 31) (2 ^ 32) ltac:(lia)). lia.
Qed.

Lemma toInt32_idem z : toInt32 (toInt32 z) = toInt32 z.
Proof.
  unfold toInt32 at 1 3.
  replace (toInt32 z + 2 ^ 31) with ((z + 2 ^ 31) mod 2 ^ 32)
    by (unfold toInt32; lia).
  now rewrite Z.mod_mod by lia.
Qed.

Lemma toInt32_add_l a b : toInt32 (toInt32 a + b) = toInt32 (a + b).
Proof.
  unfold toInt32.
  replace ((a + 2 ^ 31) mod 2 ^ 32 - 2 ^ 31 + b + 2 ^ 31)
    with ((a + 2 ^ 31) mod 2 ^ 32 + b) by lia.
  rewrite Zplus_mod_idemp_l. do 2 f_equal. lia.
Qed.

Lemma or_0_r a : or a 0 = toInt32 a.
Proof.
  unfold or. change (toInt32 0) with 0.
  rewrite Z.lor_0_r. apply toInt32_idem.
Qed.

Lemma toUint32_range z : 0 <= toUint32 z < 2 ^ 32.
Proof. unfold toUint32. apply Z.mod_pos_bound. lia. Qed.

Lemma ushr_0 a : ushr a 0 = toUint32 a.
Proof. unfold ushr. change (0 mod 32) with 0. apply Z.shiftr_0_r. Qed.

End Int32Facts.

(** The captured variable after a call: one wrapped step of the additive
    constant. *)
Lemma seededNext_seed (seed : Z) :
  snd (seededNext seed) = Int32.toInt32 (seed + 0x6d2b79f5).
Proof.
  unfold seededNext. cbn [snd].
  rewrite !Int32Facts.or_0_r. apply Int32Facts.toInt32_add_l.
Qed.

(** A call only looks at the seed through [ToInt32]. *)
Lemma seededNext_wrap (seed : Z) :
  seededNext (Int32.toInt32 seed) = seededNext seed.
Proof.
  unfold seededNext.
  rewrite !Int32Facts.or_0_r, Int32Facts.toInt32_idem. reflexivity.
Qed.

Lemma seededNext_unit_interval (seed : Z) :
  (0 <= fst (seededNext seed) < 1)%Q.
Proof.
  unfold seededNext. cbn [fst].
  rewrite Int32Facts.ushr_0.
  match goal with |- context [Int32.toUint32 ?t] =>
    pose proof (Int32Facts.toUint32_range t) as Hu;
    generalize dependent (Int32.toUint32 t) end.
  intros u Hu. unfold Qdiv, Qle, Qlt, Qmult, Qinv, inject_Z. cbn. lia.
Qed.

(** The generator of the rock, seed 1337: its first three numbers. *)
Example seededStream_1337 :
  seededStream 1337 3 =
    [ (0x2f359d26 # 4294967296)%Q; (0x30a322b5 # 4294967296)%Q;
      (0xcf7b17ad # 4294967296)%Q ].
Proof. vm_compute. reflexivity. Qed.

Lemma seededStream_S (seed : Z) (n : nat) :
  seededStream seed (S n)
  = fst (seededNext seed) :: seededStream (snd (seededNext seed)) n.
Proof.
  unfold seededStream. cbn [iterCalls].
  destruct (iterCalls seededNext (snd (seededNext seed)) n). reflexivity.
Qed.

Lemma seededState_S (seed : Z) (n : nat) :
  seededState seed (S n) = seededState (snd (seededNext seed)) n.
Proof.
  unfold seededState. cbn [iterCalls].
  destruct (iterCalls seededNext (snd (seededNext seed)) n). reflexivity.
Qed.

Lemma seededStream_unit_interval (n : nat) (seed : Z) :
  Forall (fun x => (0 <= x < 1)%Q) (seededStream seed n).
Proof.
  revert seed. induction n as [|n IH]; intros seed.
  - constructor.
  - rewrite seededStream_S. constructor.
    + apply seededNext_unit_interval.
    + apply IH.
Qed.

(** Seeds that agree modulo 2^32 give the same stream. *)
Lemma seededStream_wrap (n : nat) (seed : Z) :
  seededStream (Int32.toInt32 seed) n = seededStream seed n.
Proof.
  destruct n as [|n]; [reflexivity|].
  rewrite !seededStream_S. now rewrite seededNext_wrap.
Qed.

Lemma outputsOf_cons_same g x out : outputsOf g ((g, x) :: out) = x :: outputsOf g out.
Proof. unfold outputsOf. now rewrite filter_cons_True. Qed.

Lemma outputsOf_cons_other g g' x out :
  g' ≠ g -> outputsOf g ((g', x) :: out) = outputsOf g out.
Proof. intros Hne. unfold outputsOf. now rewrite filter_cons_False. Qed.

Lemma callsOf_cons_same `{EqDecision A} (g : A) sched :
  callsOf g (g :: sched) = S (callsOf g sched).
Proof. unfold callsOf. now rewrite filter_cons_True. Qed.

Lemma callsOf_cons_other `{EqDecision A} (g g' : A) sched :
  g' ≠ g -> callsOf g (g' :: sched) = callsOf g sched.
Proof. intros Hne. unfold callsOf. now rewrite filter_cons_False. Qed.

Lemma callsOf_replicate (g n : nat) : callsOf g (replicate n g) = n.
Proof.
  induction n as [|n IH]; [reflexivity|].
  cbn [replicate]. rewrite callsOf_cons_same. now f_equal.
Qed.

(** Generators do not interfere: whatever the order of the calls, each
    generator returns the stream of its own seed and ends in the state of
    its own call count. *)
Lemma runCalls_streams (sched : list nat) (h : gmap nat Z) :
  (forall g, g ∈ sched -> is_Some (h !! g)) ->
  exists out h',
    runCalls sched h = Some (out, h') /\
    forall g seed, h !! g = Some seed ->
      outputsOf g out = seededStream seed (callsOf g sched) /\
      h' !! g = Some (seededState seed (callsOf g sched)).
Proof.
  revert h. induction sched as [|g0 rest IH]; intros h Hdom.
  - exists [], h. split; [reflexivity|]. intros g seed Hg.
    split; [reflexivity|exact Hg].
  - destruct (Hdom g0) as [s0 Hs0]; [constructor|].
    cbn [runCalls]. unfold callRandom. rewrite Hs0.
    destruct (seededNext s0) as [x s0'] eqn:Enext.
    destruct (IH (<[g0 := s0']> h)) as (out & h' & Hrun & Hall).
    { intros g Hg. apply lookup_insert_is_Some'. right. apply Hdom. now constructor. }
    rewrite Hrun. exists ((g0, x) :: out), h'. split; [reflexivity|].
    intros g seed Hg. destruct (decide (g0 = g)) as [->|Hne].
    + assert (seed = s0) as -> by congruence.
      destruct (Hall g s0') as [Hout Hst]; [apply lookup_insert_eq|].
      rewrite outputsOf_cons_same, callsOf_cons_same.
      rewrite seededStream_S, seededState_S, Enext. cbn [fst snd].
      split; [f_equal; exact Hout|exact Hst].
    + destruct (Hall g seed) as [Hout Hst].
      { rewrite lookup_insert_ne by exact Hne. exact Hg. }
      rewrite outputsOf_cons_other, callsOf_cons_other by exact Hne.
      split; [exact Hout|exact Hst].
Qed.

Lemma createNoise3D_field (draws : nat) (noise3D : list Q -> Q -> Q -> Q -> Q)
    (g : nat) (seed : Z) (h : gmap nat Z) :
  h !! g = Some seed ->
  exists h',
    createNoise3D draws noise3D g h = Some (noise3D (seededStream seed draws), h') /\
    forall g' seed', g' ≠ g -> h !! g' = Some seed' -> h' !! g' = Some seed'.
Proof.
  intros Hg. unfold createNoise3D.
  destruct (runCalls_streams (replicate draws g) h) as (out & h' & Hrun & Hall).
  { intros g' Hin. apply elem_of_replicate in Hin as [-> _]. eauto. }
  rewrite Hrun. exists h'. split.
  - destruct (Hall g seed Hg) as [-> _]. now rewrite callsOf_replicate.
  - intros g' s' Hne E. destruct (Hall g' s' E) as [_ ->].
    assert (callsOf g' (replicate draws g) = 0%nat) as ->; [|reflexivity].
    clear -Hne. induction draws as [|n IH]; [reflexivity|].
    cbn [replicate]. rewrite callsOf_cons_other by congruence. exact IH.
Qed.

(** C8. Two generators created from the same integer seed return the same
    numbers, call for call, however their calls are interleaved: each one
    yields the stream of the seed, of the length it was called. Every
    number lies in [0,1). The noise fields built from two such generators
    are the same function, so sampling at one point gives one value, on
    either field and on every call. *)
Theorem seeded_noise_deterministic (seed : Z) (h : gmap nat Z) (sched : list bool)
    (draws : nat) (noise3D : list Q -> Q -> Q -> Q -> Q) :
  let g1 := fst (createSeededRandom seed h) in
  let h1 := snd (createSeededRandom seed h) in
  let g2 := fst (createSeededRandom seed h1) in
  let h2 := snd (createSeededRandom seed h1) in
  (exists out h',
      runCalls ((fun b : bool => if b then g1 else g2) <$> sched) h2 = Some (out, h') /\
      outputsOf g1 out = seededStream seed (callsOf true sched) /\
      outputsOf g2 out = seededStream seed (callsOf false sched)) /\
  (forall n, Forall (fun x => (0 <= x < 1)%Q) (seededStream seed n)) /\
  (exists field1 h3 field2 h4,
      createNoise3D draws noise3D g1 h2 = Some (field1, h3) /\
      createNoise3D draws noise3D g2 h3 = Some (field2, h4) /\
      forall x y z, field1 x y z = field2 x y z).
Proof.
  intros g1 h1 g2 h2.
  assert (Hne : g1 ≠ g2).
  { intros Heq. apply (is_fresh (dom h1)).
    change (fresh (dom h1)) with g2. rewrite <- Heq.
    apply elem_of_dom. unfold h1, g1, createSeededRandom. cbn [fst snd].
    rewrite lookup_insert_eq. eauto. }
  assert (H1 : h2 !! g1 = Some seed).
  { unfold h2. unfold createSeededRandom at 1. cbn [snd].
    change (fresh (dom h1)) with g2. rewrite lookup_insert_ne by congruence.
    unfold h1, g1, createSeededRandom. cbn [fst snd]. apply lookup_insert_eq. }
  assert (H2 : h2 !! g2 = Some seed).
  { unfold h2, g2, createSeededRandom. cbn [fst snd]. apply lookup_insert_eq. }
  assert (Hcount : forall b,
    callsOf (if b : bool then g1 else g2) ((fun b : bool => if b then g1 else g2) <$> sched)
    = callsOf b sched).
  { intros b. induction sched as [|c rest IH]; [reflexivity|].
    cbn [fmap list_fmap]. destruct (decide (c = b)) as [->|Hcb].
    - rewrite !callsOf_cons_same. now f_equal.
    - rewrite !callsOf_cons_other; [exact IH|exact Hcb|].
      destruct c, b; congruence. }
  split; [|split].
  - destruct (runCalls_streams ((fun b : bool => if b then g1 else g2) <$> sched) h2)
      as (out & h' & Hrun & Hall).
    { intros g Hin. apply list_elem_of_fmap in Hin as (b & -> & _).
      destruct b; eauto. }
    exists out, h'. split; [exact Hrun|].
    destruct (Hall g1 seed H1) as [-> _], (Hall g2 seed H2) as [-> _].
    now rewrite (Hcount true), (Hcount false).
  - intros n. apply seededStream_unit_interval.
  - destruct (createNoise3D_field draws noise3D g1 seed h2 H1) as (h3 & Hf1 & Hkeep).
    destruct (createNoise3D_field draws noise3D g2 seed h3) as (h4 & Hf2 & _).
    { apply Hkeep; [congruence|exact H2]. }
    eexists _, h3, _, h4. split; [exact Hf1|]. split; [exact Hf2|]. reflexivity.
Qed.

(** ** Rock displacement *)

(** An indexed loop that rewrites slot [i] from its own old content is a
    map over the slots visited so far. *)
Lemma foldl_rewrite_slots {A} (f : A -> A) (l : list A) (n : nat) :
  (n <= length l)%nat ->
  foldl (fun acc i => match acc !! i with
                      | Some a => <[i := f a]> acc
                      | None => acc
                      end) l (seq 0 n)
  = (f <$> take n l) ++ drop n l.
Proof.
  induction n as [|n IH]; intros Hn.
  - cbn. now rewrite drop_0.
  - rewrite seq_S, foldl_app, IH by lia. cbn [foldl Nat.add].
    destruct (lookup_lt_is_Some_2 l n ltac:(lia)) as [a Ha].
    assert (Hlen : length (f <$> take n l) = n).
    { rewrite length_fmap, length_take. lia. }
    rewrite lookup_app_r by lia. rewrite Hlen, Nat.sub_diag.
    rewrite (drop_S l a n Ha). cbn [lookup list_lookup].
    rewrite insert_app_r_alt by lia. rewrite Hlen, Nat.sub_diag. cbn [insert list_insert].
    rewrite (take_S_r l n a Ha), fmap_app. cbn [fmap list_fmap].
    now rewrite <- app_assoc.
Qed.

Lemma displaceAll_map (noise : Q -> Q -> Q -> Q) (pos : list Vector3) :
  displaceAll noise pos = displaced noise <$> pos.
Proof.
  unfold displaceAll, displaceVertex.
  rewrite (foldl_rewrite_slots (displaced noise)) by lia.
  now rewrite firstn_all, drop_all, app_nil_r.
Qed.


Section Rock.

(** The two libraries the factory calls: simplex-noise (how many numbers it
    draws, and its sampler) and the normal computation of three.js. *)
Variable draws : nat.
Variable noise3D : list Q -> Q -> Q -> Q -> Q.
Variable vertexNormals : list Vector3 -> list nat -> list Vector3.

Lemma rockGeometry_eq (lathe : BufferGeometry) (h : gmap nat Z) :
  let noise := noise3D (seededStream 1337 draws) in
  rockGeometry draws noise3D vertexNormals lathe h =
    Some {| position := displaced noise <$> position lathe;
            index := index lathe;
            normal := vertexNormals (displaced noise <$> position lathe) (index lathe) |}.
Proof.
  intros noise. unfold rockGeometry, createSeededRandom.
  destruct (createNoise3D_field draws noise3D (fresh (dom h)) 1337
              (<[fresh (dom h) := 1337]> h)) as (h' & -> & _).
  { apply lookup_insert_eq. }
  unfold computeVertexNormals. cbn [position index normal].
  now rewrite displaceAll_map.
Qed.

Lemma rockRun_memo (build : option BufferGeometry) (es : list RockEvent) (st : RockState) :
  rockMemo (rockRun build st es) =
    match rockMemo st with
    | Some geo => Some geo
    | None => if hasRender es then build else None
    end.
Proof.
  revert st. induction es as [|e es IH]; intros st; cbn [rockRun foldl hasRender existsb].
  - now destruct (rockMemo st).
  - fold (rockRun build (rockStep build st e) es). rewrite IH.
    destruct e as [|delta]; cbn [rockStep orb].
    + destruct (rockMemo st) as [geo|] eqn:E; cbn [rockMemo]; [reflexivity|].
      destruct build; [reflexivity|]. now destruct (hasRender es).
    + destruct (rockMounted st); reflexivity.
Qed.


(** C6. Displacement keeps the number of vertices and the triangle index
    list of the mesh it is applied to. *)
Theorem rock_topology_preserved (lathe : BufferGeometry) (h : gmap nat Z) :
  exists geo,
    rockGeometry draws noise3D vertexNormals lathe h = Some geo /\
    length (position geo) = length (position lathe) /\
    index geo = index lathe.
Proof.
  pose proof (rockGeometry_eq lathe h) as Hgeo.
  cbv zeta in Hgeo. eexists. split; [exact Hgeo|]. cbn [position index].
  split; [apply length_fmap|reflexivity].
Qed.

End Rock.

(** ** Waterfall particles *)

Lemma Qtrunc_nonneg (q : Q) : (0 <= q)%Q -> Qtrunc q = Qfloor q.
Proof.
  destruct q as [n d]. unfold Qle, Qtrunc, Qfloor. cbn. intros Hn.
  apply Z.quot_div_nonneg; lia.
Qed.

(** On a non-negative dividend, [% 1] keeps the fractional part. *)
Lemma jsRem_1_unit_interval (n : Q) : (0 <= n)%Q -> (0 <= jsRem n 1 < 1)%Q.
Proof.
  intros Hn. unfold jsRem.
  assert (Hdiv : (n / 1 == n)%Q) by (field).
  rewrite Qtrunc_nonneg by (rewrite Hdiv; exact Hn).
  rewrite (Qfloor_comp _ _ Hdiv).
  pose proof (Qfloor_le n) as Hlo. pose proof (Qlt_floor n) as Hhi.
  rewrite inject_Z_plus in Hhi. change (inject_Z 1) with 1%Q in Hhi.
  split; lra.
Qed.

Lemma advance_ok (delta : Q) (p : Particle) :
  (0 <= delta)%Q -> particleOk p -> particleOk (advance delta p).
Proof.
  intros Hd [Hoff Hsp]. unfold particleOk, advance. cbn [offset speed]. split; [|exact Hsp].
  apply jsRem_1_unit_interval.
  assert (0 <= delta * speed p)%Q by (apply Qmult_le_0_compat; lra). lra.
Qed.

Lemma arrayFrom_Forall {A} (P : A -> Prop) (f : nat -> A * nat) (len k : nat) :
  (forall k', P (fst (f k'))) -> Forall P (fst (arrayFrom len f k)).
Proof.
  intros Hf. revert k. induction len as [|len IH]; intros k; cbn [arrayFrom].
  - constructor.
  - pose proof (Hf k) as Hk. destruct (f k) as [a k1].
    pose proof (IH k1) as Hrest. destruct (arrayFrom len f k1) as [rest k2].
    now constructor.
Qed.

Lemma newDroplet_ok (rnd : nat -> Q) (k : nat) :
  (forall i, 0 <= rnd i < 1)%Q -> particleOk (fst (newDroplet rnd k)).
Proof.
  intros Hrnd. unfold particleOk, newDroplet. cbn [fst offset speed].
  pose proof (Hrnd k). pose proof (Hrnd (k + 1)%nat). split; lra.
Qed.

Lemma waterfallFrame_ok (m : Trig) (delta : Q) (w : Waterfall) :
  (0 <= delta)%Q -> Forall particleOk (droplets w) ->
  Forall particleOk (droplets (waterfallFrame m delta w)).
Proof.
  intros Hd Hw. unfold waterfallFrame. destruct (waterMesh w); [|exact Hw].
  cbn [droplets]. apply Forall_fmap. eapply Forall_impl; [exact Hw|].
  intros p Hp. now apply advance_ok.
Qed.

Lemma waterfallRun_ok (m : Trig) (deltas : list Q) (w : Waterfall) :
  Forall (fun delta => 0 <= delta)%Q deltas -> Forall particleOk (droplets w) ->
  Forall particleOk (droplets (waterfallRun m deltas w)).
Proof.
  revert w. induction deltas as [|delta deltas IH]; intros w Hds Hw; [exact Hw|].
  inversion Hds as [|? ? Hd Hrest]; subst. cbn [waterfallRun foldl].
  apply IH; [exact Hrest|]. now apply waterfallFrame_ok.
Qed.

(** C3. Every particle of the waterfall pool starts with a progress in
    [0,1), and after any number of ticks with non-negative frame times its
    progress is again in [0,1): never negative, never 1 or more. The speed
    is the one drawn at creation, in [0.18, 0.5). *)
Theorem waterfall_progress_in_unit_interval (m : Trig) (rnd : nat -> Q) (k : nat)
    (mesh : bool) (deltas : list Q) :
  (forall i, 0 <= rnd i < 1)%Q ->
  Forall (fun delta => 0 <= delta)%Q deltas ->
  Forall (fun p => 0 <= offset p < 1)%Q
    (droplets (waterfallRun m deltas (waterfallInitial rnd k mesh))).
Proof.
  intros Hrnd Hds.
  eapply Forall_impl.
  - apply waterfallRun_ok; [exact Hds|].
    cbn [waterfallInitial droplets]. apply arrayFrom_Forall.
    intros k'. now apply newDroplet_ok.
  - intros p [Hoff _]. exact Hoff.
Qed.

Lemma waterfall_progress_witness :
  (forall i : nat, 0 <= (fun _ : nat => 1 # 2) i < 1)%Q /\
  Forall (fun delta => 0 <= delta)%Q [0.1; 0; 0.016]%Q /\
  Forall (fun p => 0 <= offset p < 1)%Q
    (droplets (waterfallRun unitTrig [0.1; 0; 0.016]%Q
                 (waterfallInitial (fun _ => 1 # 2)%Q 0 true))).
Proof.
  assert (H1 : forall i : nat, (0 <= (fun _ : nat => 1 # 2) i < 1)%Q)
    by (intros _; split; [discriminate | reflexivity]).
  assert (H2 : Forall (fun delta => 0 <= delta)%Q [0.1; 0; 0.016]%Q)
    by (repeat constructor; discriminate).
  exact (conj H1 (conj H2
    (waterfall_progress_in_unit_interval unitTrig (fun _ => 1 # 2)%Q 0 true _ H1 H2))).
Defined.

Lemma waterfallScale_closed (p : Q) :
  (waterfallScale p == 0.28 - 0.23 * (1 - p) * (1 - p))%Q.
Proof. unfold waterfallScale, lerp. ring. Qed.






(** ** Capture *)

Section Capture.

(** The browser's encoder and the reading of the clock. *)
Variable toDataURL : Stage -> option string.
Variable now : Z.

(** [capture] runs straight to the encoder; what happens next is decided
    there. *)
Lemma capture_eq (s : Stage) :
  capture toDataURL now s =
    match toDataURL (exportStage s) with
    | Some url => (Some tt, restoredStage now url s)
    | None => (None, exportStage s)
    end.
Proof. reflexivity. Qed.

Lemma capture_throws (s : Stage) :
  toDataURL (exportStage s) = None ->
  capture toDataURL now s = (None, exportStage s).
Proof. intros Henc. now rewrite capture_eq, Henc. Qed.

Lemma capture_returns (s : Stage) (url : string) :
  toDataURL (exportStage s) = Some url ->
  capture toDataURL now s = (Some tt, restoredStage now url s).
Proof. intros Henc. now rewrite capture_eq, Henc. Qed.

Lemma capture_outcome (s : Stage) :
  fst (capture toDataURL now s) = (fun _ => tt) <$> toDataURL (exportStage s).
Proof. rewrite capture_eq. now destruct (toDataURL (exportStage s)). Qed.

(** The restore statements undo the export configuration field by field. *)
Lemma restoredStage_snapshot (url : string) (s : Stage) :
  snapshot (restoredStage now url s) = snapshot s.
Proof. reflexivity. Qed.

Lemma restoredStage_frames (url : string) (s : Stage) :
  frames (restoredStage now url s) = frames s ++ [exportFrame; liveFrame s].
Proof. cbn [restoredStage frames]. now rewrite <- app_assoc. Qed.

(** C1 (the code departs from it). When the encoder throws, [capture]
    ends there: the exception leaves with pixel density 1, size
    3200 x 4000 and aspect 3200/4000 still in place, the projection still
    the export one, one frame drawn and none for the live view, nothing
    invalidated. The restore statements are not reached. *)
Theorem capture_encoder_throw_skips_restore (s : Stage) :
  toDataURL (exportStage s) = None ->
  let s' := snd (capture toDataURL now s) in
  fst (capture toDataURL now s) = None /\
  pixelRatio (renderer s') = 1%Q /\
  sizeWidth (renderer s') = EXPORT_WIDTH /\
  sizeHeight (renderer s') = EXPORT_HEIGHT /\
  aspect (camera s') = (EXPORT_WIDTH / EXPORT_HEIGHT)%Q /\
  projectionAspect (camera s') = (EXPORT_WIDTH / EXPORT_HEIGHT)%Q /\
  frames s' = frames s ++ [exportFrame] /\
  invalidations s' = invalidations s.
Proof.
  intros Henc s'. subst s'. rewrite (capture_throws _ Henc).
  cbn [fst snd exportStage renderer camera frames invalidations].
  repeat split.
Qed.

(** C2. A capture that returns normally leaves pixel density, viewport
    width and height, canvas style width and height and camera aspect
    equal to the values they had on entry, whatever these were; the
    projection is then the one of the restored aspect and the last frame
    drawn is a frame of the live view. *)
Theorem capture_restores_snapshot (s : Stage) :
  fst (capture toDataURL now s) = Some tt ->
  let s' := snd (capture toDataURL now s) in
  pixelRatio (renderer s') = pixelRatio (renderer s) /\
  sizeWidth (renderer s') = sizeWidth (renderer s) /\
  sizeHeight (renderer s') = sizeHeight (renderer s) /\
  styleWidth (renderer s') = styleWidth (renderer s) /\
  styleHeight (renderer s') = styleHeight (renderer s) /\
  aspect (camera s') = aspect (camera s) /\
  projectionAspect (camera s') = aspect (camera s) /\
  last (frames s') = Some (liveFrame s).
Proof.
  intros Hok s'. subst s'.
  rewrite capture_outcome in Hok.
  destruct (toDataURL (exportStage s)) as [url|] eqn:Henc; [|discriminate Hok].
  rewrite (capture_returns s url Henc). cbn [snd].
  pose proof (f_equal snapPixelRatio (restoredStage_snapshot url s)) as Hpr.
  pose proof (f_equal snapWidth (restoredStage_snapshot url s)) as Hw.
  pose proof (f_equal snapHeight (restoredStage_snapshot url s)) as Hh.
  pose proof (f_equal snapStyleWidth (restoredStage_snapshot url s)) as Hsw.
  pose proof (f_equal snapStyleHeight (restoredStage_snapshot url s)) as Hsh.
  pose proof (f_equal snapAspect (restoredStage_snapshot url s)) as Ha.
  split; [exact Hpr|]. split; [exact Hw|]. split; [exact Hh|].
  split; [exact Hsw|]. split; [exact Hsh|]. split; [exact Ha|].
  split; [reflexivity|].
  rewrite restoredStage_frames. now rewrite last_app.
Qed.

End Capture.

Lemma capture_encoder_throw_witness :
  encoderThrows (exportStage liveStage) = None /\
  snapshot (snd (capture encoderThrows 1730000000000 liveStage)) <> snapshot liveStage.
Proof.
  split; [reflexivity|].
  pose proof (capture_encoder_throw_skips_restore encoderThrows 1730000000000 liveStage
                eq_refl) as (_ & Hpr & _).
  intros Hsnap. apply (f_equal snapPixelRatio) in Hsnap. cbn [snapshot snapPixelRatio] in Hsnap.
  rewrite Hpr in Hsnap. discriminate Hsnap.
Defined.

Lemma capture_restores_witness :
  fst (capture encoderOk 1730000000000 liveStage) = Some tt /\
  let s' := snd (capture encoderOk 1730000000000 liveStage) in
  pixelRatio (renderer s') = 2%Q /\
  sizeWidth (renderer s') = 800%Q /\
  sizeHeight (renderer s') = 600%Q /\
  styleWidth (renderer s') = "800px" /\
  styleHeight (renderer s') = "600px" /\
  aspect (camera s') = (4 # 3)%Q /\
  projectionAspect (camera s') = (4 # 3)%Q /\
  last (frames s') = Some (liveFrame liveStage).
Proof.
  split; [reflexivity|].
  exact (capture_restores_snapshot encoderOk 1730000000000 liveStage eq_refl).
Defined.

(** ** The export button *)

(** A call that passes the guard sets the flag, runs the whole capture and
    parks at the [await]. *)
Lemma handleExport_starts (toDataURL : Stage -> option string) (now : Z)
    (hd : Handler) (a : App) :
  captureRef a = true -> seenExporting hd = false ->
  handleExport toDataURL now hd a =
    (Awaiting (fst (capture toDataURL now (stage a))),
     {| stage := snd (capture toDataURL now (stage a));
        captureRef := true;
        isExporting := true |}).
Proof.
  intros Href Hseen. unfold handleExport. rewrite Href, Hseen.
  cbn [negb orb setIsExporting stage captureRef isExporting].
  destruct (capture toDataURL now (stage a)) as [outcome s'].
  cbn [fst snd]. now rewrite Href.
Qed.

(** A call through a handler that saw the flag set returns at the guard. *)
Lemma handleExport_rejects (toDataURL : Stage -> option string) (now : Z)
    (hd : Handler) (a : App) :
  seenExporting hd = true -> handleExport toDataURL now hd a = (Returned, a).
Proof.
  intros Hseen. unfold handleExport. rewrite Hseen. now rewrite orb_true_r.
Qed.

(** C10. An export started from the idle state sets the flag and, when the
    awaited capture settles, clears it again, whether the capture was
    fulfilled or rejected; the handler of the following render passes the
    guard, so a later export starts. *)
Theorem export_returns_to_idle (toDataURL toDataURL' : Stage -> option string)
    (now now' : Z) (a : App) :
  captureRef a = true ->
  isExporting a = false ->
  let outcome := fst (capture toDataURL now (stage a)) in
  exists a1 a2,
    handleExport toDataURL now (renderHandler a) a = (Awaiting outcome, a1) /\
    isExporting a1 = true /\
    handleExportResume (Awaiting outcome) a1 = (outcome, a2) /\
    isExporting a2 = false /\
    stage a2 = stage a1 /\
    exists outcome' a3,
      handleExport toDataURL' now' (renderHandler a2) a2 = (Awaiting outcome', a3).
Proof.
  intros Href Hidle outcome.
  eexists _, _. split.
  { apply handleExport_starts; [exact Href|exact Hidle]. }
  split; [reflexivity|]. split; [reflexivity|]. split; [reflexivity|].
  split; [reflexivity|].
  eexists _, _. apply handleExport_starts; reflexivity.
Qed.

Lemma export_returns_to_idle_witness :
  captureRef idleApp = true /\
  isExporting idleApp = false /\
  fst (capture encoderThrows 1730000000000 (stage idleApp)) = None /\
  exists a1 a2,
    handleExport encoderThrows 1730000000000 (renderHandler idleApp) idleApp
      = (Awaiting None, a1) /\
    isExporting a1 = true /\
    handleExportResume (Awaiting None) a1 = (None, a2) /\
    isExporting a2 = false /\
    stage a2 = stage a1 /\
    exists outcome' a3,
      handleExport encoderOk 1730000000001 (renderHandler a2) a2 = (Awaiting outcome', a3).
Proof.
  split; [reflexivity|]. split; [reflexivity|]. split; [reflexivity|].
  exact (export_returns_to_idle encoderThrows encoderOk 1730000000000 1730000000001
           idleApp eq_refl eq_refl).
Defined.

(** C7 (the code departs from it). Called twice in a row, before the
    first export has finished, the handler of one render passes its guard
    twice: the flag the guard tests is the value the closure holds, not
    the state [setIsExporting(true)] has just written, so the second call
    is no no-op and two whole captures run, with two export frames and
    two downloads. *)
Lemma reentrant_stale_handler_runs_twice :
  let hd := renderHandler idleApp in
  let first := handleExport encoderOk 1730000000000 hd idleApp in
  let second := handleExport encoderOk 1730000000001 hd (snd first) in
  fst first = Awaiting (Some tt) /\
  fst second = Awaiting (Some tt) /\
  exportFrames (stage (snd first)) = 1%nat /\
  exportFrames (stage (snd second)) = 2%nat /\
  length (downloads (stage (snd second))) = 2%nat.
Proof. vm_compute. repeat split. Qed.

(** What the guard does reject: while an export is parked at its
    [await], a call through the handler of a render that has seen the
    flag set returns at the guard and changes nothing. The parked export
    then finishes: the flag is cleared and the stage is the one its
    capture left, with one export frame added to the frames drawn before;
    when the capture was fulfilled the live frame follows it and the
    snapshot is back. *)
Theorem reentrant_export_rejected (toDataURL toDataURL' : Stage -> option string)
    (now now' : Z) (a : App) :
  captureRef a = true ->
  isExporting a = false ->
  let outcome := fst (capture toDataURL now (stage a)) in
  exists a1 a2,
    handleExport toDataURL now (renderHandler a) a = (Awaiting outcome, a1) /\
    handleExport toDataURL' now' (renderHandler a1) a1 = (Returned, a1) /\
    handleExportResume (Awaiting outcome) a1 = (outcome, a2) /\
    isExporting a2 = false /\
    frames (stage a2) =
      frames (stage a) ++
        exportFrame :: match outcome with
                       | Some _ => [liveFrame (stage a)]
                       | None => []
                       end /\
    (outcome = Some tt -> snapshot (stage a2) = snapshot (stage a)).
Proof.
  intros Href Hidle outcome.
  eexists _, _. split.
  { apply handleExport_starts; [exact Href|exact Hidle]. }
  split; [now apply handleExport_rejects|].
  split; [reflexivity|]. split; [reflexivity|].
  cbn [handleExportResume setIsExporting stage snd].
  subst outcome.
  destruct (toDataURL (exportStage (stage a))) as [url|] eqn:Henc.
  - rewrite (capture_returns toDataURL now (stage a) url Henc). cbn [fst snd].
    split; [apply restoredStage_frames|]. intros _. apply restoredStage_snapshot.
  - rewrite (capture_throws _ _ _ Henc). cbn [fst snd exportStage frames].
    split; [reflexivity|]. discriminate.
Qed.

Lemma reentrant_export_rejected_witness :
  captureRef idleApp = true /\
  isExporting idleApp = false /\
  exists a1 a2,
    handleExport encoderOk 1730000000000 (renderHandler idleApp) idleApp
      = (Awaiting (Some tt), a1) /\
    handleExport encoderOk 1730000000001 (renderHandler a1) a1 = (Returned, a1) /\
    handleExportResume (Awaiting (Some tt)) a1 = (Some tt, a2) /\
    isExporting a2 = false /\
    frames (stage a2) = [exportFrame; liveFrame liveStage] /\
    (Some tt = Some tt -> snapshot (stage a2) = snapshot liveStage).
Proof.
  split; [reflexivity|]. split; [reflexivity|].
  exact (reentrant_export_rejected encoderOk encoderOk 1730000000000 1730000000001
           idleApp eq_refl eq_refl).
Defined.

(** ** Where the particle constants come from *)

(** A callback that builds its element from the counter and moves the
    counter on by [c] fills the array with every [c]-th reading. *)
Lemma arrayFrom_stride {A} (mk : nat -> A) (c len k : nat) :
  arrayFrom len (fun j => (mk j, (j + c)%nat)) k
  = ((fun i => mk (k + c * i)%nat) <$> seq 0 len, (k + c * len)%nat).
Proof.
  revert k. induction len as [|len IH]; intros k.
  - cbn. f_equal. lia.
  - cbn [arrayFrom]. rewrite IH. cbn [seq fmap list_fmap]. f_equal.
    + f_equal; [f_equal; lia|].
      rewrite <- fmap_S_seq, <- list_fmap_compose.
      apply list_fmap_ext. intros _ i _. cbn. f_equal. lia.
    + lia.
Qed.

Lemma createDroplets_stride (rnd : nat -> Q) (k : nat) :
  createDroplets rnd k
  = ((fun i => dropletAt rnd (k + 3 * i)%nat) <$> seq 0 WATERFALL_PARTICLES,
     (k + 3 * WATERFALL_PARTICLES)%nat).
Proof. unfold createDroplets. apply (arrayFrom_stride (dropletAt rnd) 3). Qed.

Lemma createSpray_stride (m : Trig) (rnd : nat -> Q) (k : nat) :
  createSpray m rnd k
  = ((fun i => sprayAt m rnd (k + 5 * i)%nat) <$> seq 0 SPRAY_PARTICLES,
     (k + 5 * SPRAY_PARTICLES)%nat).
Proof. unfold createSpray. apply (arrayFrom_stride (sprayAt m rnd) 5). Qed.

(** Pools built from readings that agree on the calls made are equal. *)
Lemma createDroplets_ext (rnd1 rnd2 : nat -> Q) (k : nat) :
  (forall i, (i < 3 * WATERFALL_PARTICLES)%nat -> rnd1 (k + i)%nat = rnd2 (k + i)%nat) ->
  createDroplets rnd1 k = createDroplets rnd2 k.
Proof.
  intros Hsame. rewrite !createDroplets_stride. f_equal.
  apply list_fmap_ext. intros i j Hi.
  apply lookup_seq in Hi as [-> Hi]. cbn [Nat.add].
  unfold dropletAt, newDroplet. cbn [fst].
  rewrite <- !Nat.add_assoc. rewrite !Hsame by lia. reflexivity.
Qed.

Lemma createSpray_ext (m : Trig) (rnd1 rnd2 : nat -> Q) (k : nat) :
  (forall i, (i < 5 * SPRAY_PARTICLES)%nat -> rnd1 (k + i)%nat = rnd2 (k + i)%nat) ->
  createSpray m rnd1 k = createSpray m rnd2 k.
Proof.
  intros Hsame. rewrite !createSpray_stride. f_equal.
  apply list_fmap_ext. intros i j Hi.
  apply lookup_seq in Hi as [-> Hi]. cbn [Nat.add].
  unfold sprayAt, newSprayParticle. cbn [fst].
  rewrite <- !Nat.add_assoc. rewrite !Hsame by lia. reflexivity.
Qed.

(** C9 as stated fails: the pools take no seed; they read [Math.random],
    and two readings of it give two pools. *)
Lemma particles_follow_ambient_random :
  offset <$> (fst (createDroplets randomZero 0) !! 0%nat) = Some 0%Q /\
  offset <$> (fst (createDroplets randomHalf 0) !! 0%nat) = Some (1 # 2)%Q /\
  fst (createDroplets randomZero 0) <> fst (createDroplets randomHalf 0) /\
  fst (createSpray unitTrig randomZero 2700) <> fst (createSpray unitTrig randomHalf 2700).
Proof.
  split; [reflexivity|]. split; [reflexivity|]. split.
  - intros Heq. apply (f_equal (fun l => offset <$> l !! 0%nat)) in Heq.
    vm_compute in Heq. discriminate Heq.
  - intros Heq. apply (f_equal (fun l => height <$> l !! 0%nat)) in Heq.
    vm_compute in Heq. discriminate Heq.
Qed.

(** C9 as amended. The per-particle constants are functions of the
    numbers [Math.random] returns: droplet [i] takes three consecutive
    draws (offset, speed = 0.18 + 0.32 r, jitter = 0.65 (0.5 - r)), spray
    particle [i] five (base angle, radius, speed, height, jitter). Two runs
    that receive the same draws build the same pools, and with the same
    frame times the waterfall pools stay equal tick after tick. *)
Theorem particles_determined_by_draws (m : Trig) (rnd1 rnd2 : nat -> Q) (k : nat)
    (mesh : bool) (deltas : list Q) :
  (forall i, (i < 3 * WATERFALL_PARTICLES + 5 * SPRAY_PARTICLES)%nat ->
     rnd1 (k + i)%nat = rnd2 (k + i)%nat) ->
  (forall i, (i < WATERFALL_PARTICLES)%nat ->
     fst (createDroplets rnd1 k) !! i =
       Some {| offset := rnd1 (k + 3 * i)%nat;
               speed := 0.18 + rnd1 (k + 3 * i + 1)%nat * 0.32;
               jitter := 0.65 * (0.5 - rnd1 (k + 3 * i + 2)%nat) |}%Q) /\
  createDroplets rnd1 k = createDroplets rnd2 k /\
  createSpray m rnd1 (snd (createDroplets rnd1 k))
    = createSpray m rnd2 (snd (createDroplets rnd2 k)) /\
  waterfallRun m deltas (waterfallInitial rnd1 k mesh)
    = waterfallRun m deltas (waterfallInitial rnd2 k mesh) /\
  (forall now buf,
     sprayFrame m now mesh (fst (createSpray m rnd1 (snd (createDroplets rnd1 k)))) buf
     = sprayFrame m now mesh (fst (createSpray m rnd2 (snd (createDroplets rnd2 k)))) buf).
Proof.
  intros Hsame.
  assert (Hdrops : createDroplets rnd1 k = createDroplets rnd2 k).
  { apply createDroplets_ext. intros i Hi. apply Hsame. lia. }
  assert (Hspray : createSpray m rnd1 (snd (createDroplets rnd1 k))
                   = createSpray m rnd2 (snd (createDroplets rnd2 k))).
  { rewrite !createDroplets_stride. cbn [snd]. apply createSpray_ext.
    intros i Hi. rewrite <- !Nat.add_assoc. apply Hsame. lia. }
  split.
  { intros i Hi. rewrite createDroplets_stride. cbn [fst].
    rewrite list_lookup_fmap, lookup_seq_lt by exact Hi. reflexivity. }
  split; [exact Hdrops|]. split; [exact Hspray|]. split.
  - unfold waterfallInitial. now rewrite Hdrops.
  - intros now buf. now rewrite Hspray.
Qed.

Lemma particles_determined_witness :
  (forall i, (i < 3 * WATERFALL_PARTICLES + 5 * SPRAY_PARTICLES)%nat ->
     randomHalfThenZero (0 + i)%nat = randomHalf (0 + i)%nat) /\
  createDroplets randomHalfThenZero 0 = createDroplets randomHalf 0 /\
  waterfallRun unitTrig [0.1; 0.016]%Q (waterfallInitial randomHalfThenZero 0 true)
    = waterfallRun unitTrig [0.1; 0.016]%Q (waterfallInitial randomHalf 0 true).
Proof.
  assert (H : forall i, (i < 3 * WATERFALL_PARTICLES + 5 * SPRAY_PARTICLES)%nat ->
     randomHalfThenZero (0 + i)%nat = randomHalf (0 + i)%nat).
  { intros i Hi. unfold randomHalfThenZero, randomHalf. cbn [Nat.add].
    destruct (Nat.ltb_spec i 3600) as [_|Hge]; [reflexivity|].
    unfold WATERFALL_PARTICLES, SPRAY_PARTICLES in Hi. lia. }
  split; [exact H|].
  pose proof (particles_determined_by_draws unitTrig randomHalfThenZero randomHalf 0 true
                [0.1; 0.016]%Q H) as (_ & Hd & _ & Hrun & _).
  exact (conj Hd Hrun).
Defined.

(** * Further properties of the code *)

(** ** The seeded generator: state, random access, period *)

Lemma toInt32_eq_iff (a b : Z) :
  Int32.toInt32 a = Int32.toInt32 b <-> (a - b) mod 2 ^ 32 = 0.
Proof.
  unfold Int32.toInt32. split; intros H.
  - assert (Hm : (a + 2 ^ 31) mod 2 ^ 32 = (b + 2 ^ 31) mod 2 ^ 32) by lia.
    replace (a - b) with ((a + 2 ^ 31) - (b + 2 ^ 31)) by lia.
    now rewrite Zminus_mod, Hm, Z.sub_diag.
  - assert (Hm : (a + 2 ^ 31) mod 2 ^ 32 = (b + 2 ^ 31) mod 2 ^ 32); [|lia].
    replace (a + 2 ^ 31) with ((b + 2 ^ 31) + (a - b)) by lia.
    rewrite Zplus_mod, H, Z.add_0_r. apply Z.mod_mod. lia.
Qed.

(** After [n >= 1] calls the captured variable is the seed plus [n] times
    the additive constant, wrapped to 32 bits. *)
Lemma seededState_closed (seed : Z) (n : nat) :
  (0 < n)%nat ->
  seededState seed n = Int32.toInt32 (seed + Z.of_nat n * 0x6d2b79f5).
Proof.
  revert seed. induction n as [|n IH]; intros seed Hn; [lia|].
  rewrite seededState_S, seededNext_seed.
  destruct n as [|n].
  - unfold seededState. cbn [iterCalls snd]. f_equal; lia.
  - rewrite IH by lia. rewrite Int32Facts.toInt32_add_l. f_equal; lia.
Qed.

Lemma seededStream_lookup (seed : Z) (n k : nat) :
  (k < n)%nat ->
  seededStream seed n !! k = Some (fst (seededNext (seededState seed k))).
Proof.
  revert seed k. induction n as [|n IH]; intros seed k Hk; [lia|].
  rewrite seededStream_S. destruct k as [|k].
  - reflexivity.
  - cbn [lookup list_lookup]. rewrite seededState_S. apply IH. lia.
Qed.

(** X1. The [k]-th number of a stream can be computed without the ones
    before it: it is what one call returns when the variable holds
    [seed + k * 0x6d2b79f5]. *)
Theorem seeded_random_access (seed : Z) (n k : nat) :
  (k < n)%nat ->
  seededStream seed n !! k
  = Some (fst (seededNext (seed + Z.of_nat k * 0x6d2b79f5))).
Proof.
  intros Hk. rewrite seededStream_lookup by exact Hk. f_equal. f_equal.
  destruct k as [|k].
  - unfold seededState. cbn [iterCalls snd]. f_equal; lia.
  - rewrite seededState_closed by lia. apply seededNext_wrap.
Qed.

Lemma seeded_random_access_witness :
  (2 < 3)%nat /\
  seededStream 1337 3 !! 2%nat
  = Some (fst (seededNext (1337 + Z.of_nat 2 * 0x6d2b79f5))).
Proof.
  assert (H : (2 < 3)%nat) by lia.
  exact (conj H (seeded_random_access 1337 3 2 H)).
Defined.

(** X2. The variable of a generator runs through all 2^32 values before
    it repeats: after [n1] and after [n2] calls (both at least one) it
    holds the same value exactly when [n1] and [n2] differ by a multiple
    of 2^32. *)
Theorem seeded_state_period (seed : Z) (n1 n2 : nat) :
  (0 < n1)%nat -> (0 < n2)%nat ->
  (seededState seed n1 = seededState seed n2
   <-> (Z.of_nat n1 - Z.of_nat n2) mod 2 ^ 32 = 0).
Proof.
  intros H1 H2. rewrite !seededState_closed by assumption.
  rewrite toInt32_eq_iff.
  replace (seed + Z.of_nat n1 * 0x6d2b79f5 - (seed + Z.of_nat n2 * 0x6d2b79f5))
    with ((Z.of_nat n1 - Z.of_nat n2) * 0x6d2b79f5) by lia.
  rewrite !Z.mod_divide by lia.
  split; intros Hdiv.
  - apply Z.gauss with (m := 0x6d2b79f5).
    + now rewrite Z.mul_comm.
    + reflexivity.
  - now apply Z.divide_mul_l.
Qed.

Lemma seeded_state_period_witness :
  (0 < 1)%nat /\ (0 < 2)%nat /\
  (seededState 1337 1 = seededState 1337 2
   <-> (Z.of_nat 1 - Z.of_nat 2) mod 2 ^ 32 = 0).
Proof.
  assert (H1 : (0 < 1)%nat) by lia.
  assert (H2 : (0 < 2)%nat) by lia.
  exact (conj H1 (conj H2 (seeded_state_period 1337 1 2 H1 H2))).
Defined.

(** X3. Seeds that differ by a multiple of 2^32 give the same stream:
    the seed is only ever read through its 32-bit wrap. *)
Theorem seeded_stream_seed_wraps (seed k : Z) (n : nat) :
  seededStream (seed + k * 2 ^ 32) n = seededStream seed n.
Proof.
  rewrite <- (seededStream_wrap n (seed + k * 2 ^ 32)), <- (seededStream_wrap n seed).
  f_equal. apply toInt32_eq_iff.
  replace (seed + k * 2 ^ 32 - seed) with (k * 2 ^ 32) by lia.
  apply Z_mod_mult.
Qed.

(** ** Rock: what displacement can and cannot do *)

Lemma displacement_bounded (noise : Q -> Q -> Q -> Q) (v : Vector3) :
  (forall x y z, -1 <= noise x y z <= 1)%Q ->
  (0.45 <= displacement noise v <= 1.85)%Q.
Proof.
  intros Hn. unfold displacement.
  pose proof (Hn (vx v * 0.65)%Q (vy v * 0.8)%Q (vz v * 0.65)%Q) as Hb.
  pose proof (Hn (vx v * 1.2)%Q (vy v * 0.4)%Q (vz v * 1.4)%Q) as Hr.
  set (base := noise (vx v * 0.65)%Q (vy v * 0.8)%Q (vz v * 0.65)%Q) in *.
  set (ridge := noise (vx v * 1.2)%Q (vy v * 0.4)%Q (vz v * 1.4)%Q) in *.
  assert (Ha0 : (0 <= Qabs ridge)%Q) by apply Qabs_nonneg.
  assert (Ha1 : (Qabs ridge <= 1)%Q) by (apply Qabs_Qle_condition; exact Hr).
  set (a := Qabs ridge) in *.
  assert (Hcube : (a ^ 3 == a * a * a)%Q) by ring.
  rewrite Hcube.
  assert (H2 : (0 <= a * a <= 1)%Q) by nra.
  assert (H3 : (0 <= a * a * a <= 1)%Q) by nra.
  lra.
Qed.

Section RockShape.

Variable draws : nat.
Variable noise3D : list Q -> Q -> Q -> Q -> Q.
Variable vertexNormals : list Vector3 -> list nat -> list Vector3.

(** X4. When the noise field stays within [-1, 1], the factor a vertex
    is multiplied by lies between 0.4 and 1.9, so no coordinate of a
    vertex changes sign: displacement never pushes a vertex through the
    origin to the other side. *)
Theorem rock_displacement_bounded (lathe : BufferGeometry) (h : gmap nat Z) :
  (forall x y z, -1 <= noise3D (seededStream 1337 draws) x y z <= 1)%Q ->
  exists geo,
    rockGeometry draws noise3D vertexNormals lathe h = Some geo /\
    forall i v, position lathe !! i = Some v ->
      exists v',
        position geo !! i = Some v' /\
        (0.4 <= displacement (noise3D (seededStream 1337 draws)) v <= 1.9 /\
         (0 <= vx v -> 0 <= vx v') /\ (vx v <= 0 -> vx v' <= 0) /\
         (0 <= vy v -> 0 <= vy v') /\ (vy v <= 0 -> vy v' <= 0) /\
         (0 <= vz v -> 0 <= vz v') /\ (vz v <= 0 -> vz v' <= 0))%Q.
Proof.
  intros Hn. pose proof (rockGeometry_eq draws noise3D vertexNormals lathe h) as Hgeo.
  cbv zeta in Hgeo. eexists. split; [exact Hgeo|]. cbn [position].
  intros i v Hv. exists (displaced (noise3D (seededStream 1337 draws)) v). split.
  - rewrite list_lookup_fmap, Hv. reflexivity.
  - pose proof (displacement_bounded (noise3D (seededStream 1337 draws)) v Hn) as Hd.
    unfold displaced, multiplyScalar. cbn [vx vy vz].
    set (d := displacement (noise3D (seededStream 1337 draws)) v) in *.
    repeat split; try lra; intros Hc; nra.
Qed.

(** X5. Vertices that share a position before displacement share a
    position after it: the move of a vertex depends on nothing but where
    the vertex is, so duplicated vertices do not come apart. *)
Theorem rock_coincident_vertices (lathe : BufferGeometry) (h : gmap nat Z) :
  exists geo,
    rockGeometry draws noise3D vertexNormals lathe h = Some geo /\
    forall i j v, position lathe !! i = Some v -> position lathe !! j = Some v ->
      position geo !! i = position geo !! j /\ is_Some (position geo !! i).
Proof.
  pose proof (rockGeometry_eq draws noise3D vertexNormals lathe h) as Hgeo.
  cbv zeta in Hgeo. eexists. split; [exact Hgeo|]. cbn [position].
  intros i j v Hi Hj. rewrite !list_lookup_fmap, Hi, Hj. split; [reflexivity|].
  cbn. eauto.
Qed.

End RockShape.

Lemma rock_displacement_bounded_witness :
  (forall x y z, -1 <= flatNoise (seededStream 1337 255) x y z <= 1)%Q /\
  exists geo,
    rockGeometry 255 flatNoise noNormals sampleLathe ∅ = Some geo /\
    forall i v, position sampleLathe !! i = Some v ->
      exists v',
        position geo !! i = Some v' /\
        (0.4 <= displacement (flatNoise (seededStream 1337 255)) v <= 1.9 /\
         (0 <= vx v -> 0 <= vx v') /\ (vx v <= 0 -> vx v' <= 0) /\
         (0 <= vy v -> 0 <= vy v') /\ (vy v <= 0 -> vy v' <= 0) /\
         (0 <= vz v -> 0 <= vz v') /\ (vz v <= 0 -> vz v' <= 0))%Q.
Proof.
  assert (H : forall x y z, (-1 <= flatNoise (seededStream 1337 255) x y z <= 1)%Q)
    by (intros x y z; split; discriminate).
  exact (conj H (rock_displacement_bounded 255 flatNoise noNormals sampleLathe ∅ H)).
Defined.

Lemma rockStep_forward (build : option BufferGeometry) (st : RockState) (e : RockEvent) :
  match e with RockFrame delta => (0 <= delta)%Q | RockRender => True end ->
  (rockRotationY st <= rockRotationY (rockStep build st e))%Q.
Proof.
  intros He. destruct e as [|delta]; cbn [rockStep].
  - destruct (rockMemo st); cbn [rockRotationY]; lra.
  - destruct (rockMounted st); cbn [rockRotationY]; lra.
Qed.

(** X6. The per-frame callback of the rock only turns it, and with
    non-negative frame times only forward: over any run of renders and
    frames the rotation never decreases; frames leave the memoised
    geometry alone; and before the mesh is attached frames change nothing
    at all. *)
Theorem rock_frames_only_rotate (build : option BufferGeometry) (es : list RockEvent)
    (st : RockState) :
  (forwardFrames es ->
     (rockRotationY st <= rockRotationY (rockRun build st es))%Q) /\
  (hasRender es = false -> rockMemo (rockRun build st es) = rockMemo st) /\
  (rockMounted st = false -> hasRender es = false -> rockRun build st es = st).
Proof.
  split; [|split].
  - revert st. induction es as [|e es IH]; intros st Hfw.
    + cbn. lra.
    + inversion Hfw as [|? ? He Hrest]; subst.
      cbn [rockRun foldl]. fold (rockRun build (rockStep build st e) es).
      pose proof (rockStep_forward build st e He).
      pose proof (IH (rockStep build st e) Hrest). lra.
  - intros Hr. rewrite rockRun_memo, Hr. now destruct (rockMemo st).
  - revert st. induction es as [|e es IH]; intros st Hm Hr; [reflexivity|].
    destruct e as [|delta]; [discriminate Hr|].
    cbn [rockRun foldl rockStep]. rewrite Hm. apply IH; assumption.
Qed.

(** ** Particle pools and instance buffers *)

(** Writing entry [idx] of a list to slot [idx], for every index, fills
    the front of the buffer with the list and leaves the rest. *)
Lemma foldl_setMatrixAt_imap {A} (f : A -> Transform) (l : list A) (buf : list Transform) :
  (length l <= length buf)%nat ->
  foldl setMatrixAt buf (imap (fun idx p => (idx, f p)) l)
  = (f <$> l) ++ drop (length l) buf.
Proof.
  induction l as [|x l IH] using rev_ind; intros Hlen.
  - cbn. now rewrite drop_0.
  - rewrite length_app in Hlen. cbn [length] in Hlen.
    rewrite imap_app, foldl_app, IH by lia.
    cbn [imap foldl setMatrixAt fst snd]. rewrite Nat.add_0_r.
    destruct (lookup_lt_is_Some_2 buf (length l) ltac:(lia)) as [b Hb].
    rewrite (drop_S buf b (length l) Hb).
    unfold setMatrixAt. cbn [fst snd].
    rewrite insert_app_r_alt by (rewrite length_fmap; lia).
    rewrite length_fmap, Nat.sub_diag. cbn [insert list_insert].
    rewrite fmap_app, <- app_assoc, length_app. cbn [fmap list_fmap length].
    do 3 f_equal. lia.
Qed.

Lemma waterfallFrame_matrices (m : Trig) (delta : Q) (w : Waterfall) :
  waterMesh w = true ->
  (length (droplets w) <= length (waterMatrices w))%nat ->
  waterMatrices (waterfallFrame m delta w)
  = (dropletTransform m <$> droplets (waterfallFrame m delta w))
      ++ drop (length (droplets w)) (waterMatrices w).
Proof.
  intros Hmesh Hlen. unfold waterfallFrame. rewrite Hmesh. cbn [waterMatrices droplets].
  rewrite foldl_setMatrixAt_imap by (rewrite length_fmap; exact Hlen).
  now rewrite length_fmap.
Qed.

Lemma waterfallFrame_lengths (m : Trig) (delta : Q) (w : Waterfall) :
  waterMesh w = true ->
  (length (droplets w) <= length (waterMatrices w))%nat ->
  length (waterMatrices (waterfallFrame m delta w)) = length (waterMatrices w) /\
  length (droplets (waterfallFrame m delta w)) = length (droplets w).
Proof.
  intros Hmesh Hlen.
  assert (Hpool : length (droplets (waterfallFrame m delta w)) = length (droplets w)).
  { unfold waterfallFrame. rewrite Hmesh. cbn [droplets]. apply length_fmap. }
  split; [|exact Hpool].
  rewrite (waterfallFrame_matrices m delta w Hmesh Hlen).
  rewrite length_app, length_fmap, length_drop, Hpool. lia.
Qed.

(** X7. One frame of the waterfall, mesh attached, pool no larger than
    the buffer: slot [i] of the buffer holds the transform of particle [i]
    as it stands after the tick, slots past the pool are left as they
    were, the buffer keeps its length, and the upload flag is raised once. *)
Theorem waterfall_slots_follow_particles (m : Trig) (delta : Q) (w : Waterfall) :
  waterMesh w = true ->
  (length (droplets w) <= length (waterMatrices w))%nat ->
  let w' := waterfallFrame m delta w in
  length (waterMatrices w') = length (waterMatrices w) /\
  (forall i p, droplets w' !! i = Some p ->
     waterMatrices w' !! i = Some (dropletTransform m p)) /\
  (forall i, (length (droplets w) <= i)%nat ->
     waterMatrices w' !! i = waterMatrices w !! i) /\
  waterUploads w' = S (waterUploads w).
Proof.
  intros Hmesh Hlen w'. subst w'.
  rewrite (waterfallFrame_matrices m delta w Hmesh Hlen).
  assert (Hpool : length (droplets (waterfallFrame m delta w)) = length (droplets w)).
  { unfold waterfallFrame. rewrite Hmesh. cbn [droplets]. apply length_fmap. }
  split; [|split; [|split]].
  - rewrite length_app, length_fmap, length_drop, Hpool. lia.
  - intros i p Hp. rewrite lookup_app_l.
    + now rewrite list_lookup_fmap, Hp.
    + rewrite length_fmap. now apply lookup_lt_Some in Hp.
  - intros i Hi. rewrite lookup_app_r by (rewrite length_fmap, Hpool; exact Hi).
    rewrite length_fmap, Hpool, lookup_drop. f_equal. lia.
  - unfold waterfallFrame. now rewrite Hmesh.
Qed.

Lemma waterfall_slots_witness :
  waterMesh tinyWaterfall = true /\
  (length (droplets tinyWaterfall) <= length (waterMatrices tinyWaterfall))%nat /\
  let w' := waterfallFrame unitTrig 0.5 tinyWaterfall in
  length (waterMatrices w') = 3%nat /\
  (forall i p, droplets w' !! i = Some p ->
     waterMatrices w' !! i = Some (dropletTransform unitTrig p)) /\
  (forall i, (2 <= i)%nat -> waterMatrices w' !! i = waterMatrices tinyWaterfall !! i) /\
  waterUploads w' = 1%nat.
Proof.
  assert (H1 : waterMesh tinyWaterfall = true) by reflexivity.
  assert (H2 : (length (droplets tinyWaterfall) <= length (waterMatrices tinyWaterfall))%nat)
    by (cbn; lia).
  exact (conj H1 (conj H2 (waterfall_slots_follow_particles unitTrig 0.5 tinyWaterfall H1 H2))).
Defined.

(** X8. Ticks only move progress: after any run the pool has the size it
    started with and every particle the speed and jitter it started with,
    in the same slot. *)
Theorem waterfall_constants_kept (m : Trig) (deltas : list Q) (w : Waterfall) :
  length (droplets (waterfallRun m deltas w)) = length (droplets w) /\
  speed <$> droplets (waterfallRun m deltas w) = speed <$> droplets w /\
  jitter <$> droplets (waterfallRun m deltas w) = jitter <$> droplets w.
Proof.
  revert w. induction deltas as [|delta deltas IH]; intros w; [now repeat split|].
  cbn [waterfallRun foldl]. fold (waterfallRun m deltas (waterfallFrame m delta w)).
  destruct (IH (waterfallFrame m delta w)) as (Hlen & Hsp & Hji).
  rewrite Hlen, Hsp, Hji. unfold waterfallFrame.
  destruct (waterMesh w); [|now repeat split]. cbn [droplets].
  rewrite length_fmap, <- !list_fmap_compose. now repeat split.
Qed.

(** ** Progress arithmetic *)

Lemma Qfloor_unique (z : Z) (q : Q) :
  (inject_Z z <= q)%Q -> (q < inject_Z z + 1)%Q -> Qfloor q = z.
Proof.
  intros Hlo Hhi.
  pose proof (Qfloor_le q) as Hfl. pose proof (Qlt_floor q) as Hfu.
  rewrite inject_Z_plus in Hfu. change (inject_Z 1) with 1%Q in Hfu.
  assert (H1 : (inject_Z z < inject_Z (Qfloor q + 1))%Q).
  { rewrite inject_Z_plus. change (inject_Z 1) with 1%Q. lra. }
  assert (H2 : (inject_Z (Qfloor q) < inject_Z (z + 1))%Q).
  { rewrite inject_Z_plus. change (inject_Z 1) with 1%Q. lra. }
  rewrite <- Zlt_Qlt in H1, H2. lia.
Qed.

Lemma jsRem_1_frac (n : Q) : (0 <= n)%Q -> (jsRem n 1 == n - inject_Z (Qfloor n))%Q.
Proof.
  intros Hn. unfold jsRem.
  assert (Hdiv : (n / 1 == n)%Q) by field.
  rewrite Qtrunc_nonneg by (rewrite Hdiv; exact Hn).
  rewrite (Qfloor_comp _ _ Hdiv). ring.
Qed.

(** ** What the waterfall writes *)

Lemma waterfallScale_range (p : Q) :
  (0 <= p < 1)%Q -> (0.05 <= waterfallScale p <= 0.28)%Q.
Proof. intros Hp. rewrite waterfallScale_closed. split; nra. Qed.

Lemma clamp_unit_id (p : Q) : (0 <= p < 1)%Q -> (clamp p 0 1 == p)%Q.
Proof.
  intros [H0 H1]. unfold clamp.
  rewrite (Q.min_r 1 p) by lra. now apply Q.max_r.
Qed.

(** After at least one frame with the mesh attached, the buffer of a pool
    that fills it is the list of the particles' transforms. *)
Lemma waterfallRun_matrices (m : Trig) (deltas : list Q) (w : Waterfall) :
  waterMesh w = true ->
  length (droplets w) = length (waterMatrices w) ->
  deltas <> [] ->
  waterMatrices (waterfallRun m deltas w)
  = dropletTransform m <$> droplets (waterfallRun m deltas w).
Proof.
  intros Hmesh Hlen Hne.
  induction deltas as [|delta deltas IH] using rev_ind; [congruence|].
  unfold waterfallRun. rewrite foldl_app. cbn [foldl].
  fold (waterfallRun m deltas w).
  assert (Hkeep : waterMesh (waterfallRun m deltas w) = true /\
                  length (droplets (waterfallRun m deltas w))
                  = length (waterMatrices (waterfallRun m deltas w))).
  { clear IH Hne. revert w Hmesh Hlen. induction deltas as [|d ds IHd]; intros w Hmesh Hlen.
    - now split.
    - cbn [waterfallRun foldl]. fold (waterfallRun m ds (waterfallFrame m d w)).
      apply IHd.
      + unfold waterfallFrame. now rewrite Hmesh.
      + destruct (waterfallFrame_lengths m d w Hmesh) as [Hl Hd];
          [lia|]. lia. }
  destruct Hkeep as [Hm' Hl'].
  rewrite waterfallFrame_matrices by (assumption || lia).
  rewrite drop_ge by lia. apply app_nil_r.
Qed.

Lemma waterfallRun_pool_length (m : Trig) (deltas : list Q) (w : Waterfall) :
  length (droplets (waterfallRun m deltas w)) = length (droplets w).
Proof.
  revert w. induction deltas as [|delta deltas IH]; intros w; [reflexivity|].
  cbn [waterfallRun foldl]. fold (waterfallRun m deltas (waterfallFrame m delta w)).
  rewrite IH. unfold waterfallFrame. destruct (waterMesh w); [|reflexivity].
  cbn [droplets]. apply length_fmap.
Qed.

Lemma createDroplets_length (rnd : nat -> Q) (k : nat) :
  length (fst (createDroplets rnd k)) = WATERFALL_PARTICLES.
Proof. rewrite createDroplets_stride. cbn [fst]. now rewrite length_fmap, length_seq. Qed.

Lemma createDroplets_ok (rnd : nat -> Q) (k : nat) :
  (forall i, 0 <= rnd i < 1)%Q -> Forall particleOk (fst (createDroplets rnd k)).
Proof. intros Hrnd. apply arrayFrom_Forall. intros k'. now apply newDroplet_ok. Qed.

(** X10. After any non-empty run of frames with non-negative frame times,
    mesh attached, the instance buffer still has one slot per particle and
    every scale written to it lies between 0.05 and 0.28, ends included. *)
Theorem waterfall_written_scales (m : Trig) (rnd : nat -> Q) (k : nat) (deltas : list Q) :
  (forall i, 0 <= rnd i < 1)%Q ->
  Forall (fun delta => 0 <= delta)%Q deltas ->
  deltas <> [] ->
  let w := waterfallRun m deltas (waterfallInitial rnd k true) in
  length (waterMatrices w) = WATERFALL_PARTICLES /\
  Forall (fun t => 0.05 <= tScale t <= 0.28)%Q (waterMatrices w).
Proof.
  intros Hrnd Hds Hne w. subst w.
  assert (Hlen0 : length (droplets (waterfallInitial rnd k true))
                  = length (waterMatrices (waterfallInitial rnd k true))).
  { cbn [waterfallInitial droplets waterMatrices].
    now rewrite createDroplets_length, length_replicate. }
  rewrite waterfallRun_matrices by (reflexivity || assumption).
  split.
  - rewrite length_fmap, waterfallRun_pool_length.
    cbn [waterfallInitial droplets]. apply createDroplets_length.
  - apply Forall_fmap. eapply Forall_impl.
    + apply waterfallRun_ok; [exact Hds|].
      cbn [waterfallInitial droplets]. now apply createDroplets_ok.
    + intros p [Hoff _]. cbn. now apply waterfallScale_range.
Qed.

Lemma waterfall_written_scales_witness :
  (forall i : nat, 0 <= randomHalf i < 1)%Q /\
  Forall (fun delta => 0 <= delta)%Q [0.016; 0.1]%Q /\
  [0.016; 0.1]%Q <> [] /\
  let w := waterfallRun unitTrig [0.016; 0.1]%Q (waterfallInitial randomHalf 0 true) in
  length (waterMatrices w) = WATERFALL_PARTICLES /\
  Forall (fun t => 0.05 <= tScale t <= 0.28)%Q (waterMatrices w).
Proof.
  assert (H1 : forall i : nat, (0 <= randomHalf i < 1)%Q)
    by (intros i; split; [discriminate | reflexivity]).
  assert (H2 : Forall (fun delta => 0 <= delta)%Q [0.016; 0.1]%Q)
    by (repeat constructor; discriminate).
  assert (H3 : [0.016; 0.1]%Q <> []) by discriminate.
  exact (conj H1 (conj H2 (conj H3
    (waterfall_written_scales unitTrig randomHalf 0 [0.016; 0.1]%Q H1 H2 H3)))).
Defined.

(** X11. [flowPosition] pins progress outside [0, 1] to the nearer end:
    past the end of the curve it returns the position of the end point,
    before the start the position of the start point. *)
Theorem flowPosition_saturates (m : Trig) (j : Q) :
  (forall p, 1 <= p -> flowPosition m p j = flowPosition m 1 j)%Q /\
  (forall p, p <= 0 -> flowPosition m p j = flowPosition m 0 j)%Q.
Proof.
  split.
  - intros p Hp. unfold flowPosition.
    assert (Hc : clamp p 0 1 = clamp 1 0 1); [|now rewrite Hc].
    unfold clamp, Qmin, Qmax, GenericMinMax.gmin, GenericMinMax.gmax.
    destruct (1 ?= p)%Q eqn:E; try reflexivity.
    apply Qgt_alt in E. lra.
  - intros p Hp. unfold flowPosition.
    assert (Hc : clamp p 0 1 = clamp 0 0 1); [|now rewrite Hc].
    unfold clamp, Qmin, Qmax, GenericMinMax.gmin, GenericMinMax.gmax.
    destruct (1 ?= p)%Q eqn:E.
    + apply Qeq_alt in E. lra.
    + apply Qlt_alt in E. lra.
    + destruct (0 ?= p)%Q eqn:E0; try reflexivity.
      apply Qlt_alt in E0. lra.
Qed.

(** X12. For the particles of the pool the clamp of [flowPosition] is
    idle: the ticks keep progress in [0, 1), so the curve is evaluated at
    the progress the particle has. *)
Theorem waterfall_clamp_idle (m : Trig) (rnd : nat -> Q) (k : nat) (mesh : bool)
    (deltas : list Q) :
  (forall i, 0 <= rnd i < 1)%Q ->
  Forall (fun delta => 0 <= delta)%Q deltas ->
  Forall (fun p => clamp (offset p) 0 1 == offset p)%Q
    (droplets (waterfallRun m deltas (waterfallInitial rnd k mesh))).
Proof.
  intros Hrnd Hds. eapply Forall_impl.
  - apply waterfallRun_ok; [exact Hds|].
    cbn [waterfallInitial droplets]. now apply createDroplets_ok.
  - intros p [Hoff _]. cbn. now apply clamp_unit_id.
Qed.

Lemma waterfall_clamp_idle_witness :
  (forall i : nat, 0 <= randomHalf i < 1)%Q /\
  Forall (fun delta => 0 <= delta)%Q [0.016; 0.1]%Q /\
  Forall (fun p => clamp (offset p) 0 1 == offset p)%Q
    (droplets (waterfallRun unitTrig [0.016; 0.1]%Q (waterfallInitial randomHalf 0 true))).
Proof.
  assert (H1 : forall i : nat, (0 <= randomHalf i < 1)%Q)
    by (intros i; split; [discriminate | reflexivity]).
  assert (H2 : Forall (fun delta => 0 <= delta)%Q [0.016; 0.1]%Q)
    by (repeat constructor; discriminate).
  exact (conj H1 (conj H2
    (waterfall_clamp_idle unitTrig randomHalf 0 true [0.016; 0.1]%Q H1 H2))).
Defined.

(** X13. The waterfall pool is built from exactly three draws per
    particle: 900 particles, 2700 calls of [Math.random], and when the
    draws lie in [0, 1) every particle starts with progress in [0, 1),
    speed in [0.18, 0.5) and jitter in (-0.325, 0.325]. *)
Theorem createDroplets_pool (rnd : nat -> Q) (k : nat) :
  (forall i, 0 <= rnd i < 1)%Q ->
  length (fst (createDroplets rnd k)) = 900%nat /\
  snd (createDroplets rnd k) = (k + 2700)%nat /\
  Forall dropletInRange (fst (createDroplets rnd k)).
Proof.
  intros Hrnd. split; [apply createDroplets_length|]. split.
  - rewrite createDroplets_stride. reflexivity.
  - apply arrayFrom_Forall. intros k'.
    unfold dropletInRange, newDroplet, randFloatSpread. cbn [fst offset speed jitter].
    pose proof (Hrnd k'). pose proof (Hrnd (k' + 1)%nat). pose proof (Hrnd (k' + 2)%nat).
    repeat split; lra.
Qed.

Lemma createDroplets_pool_witness :
  (forall i : nat, 0 <= randomHalf i < 1)%Q /\
  length (fst (createDroplets randomHalf 0)) = 900%nat /\
  snd (createDroplets randomHalf 0) = 2700%nat /\
  Forall dropletInRange (fst (createDroplets randomHalf 0)).
Proof.
  assert (H1 : forall i : nat, (0 <= randomHalf i < 1)%Q)
    by (intros i; split; [discriminate | reflexivity]).
  exact (conj H1 (createDroplets_pool randomHalf 0 H1)).
Defined.

(** X14. While the instanced mesh is not attached the frame callback
    returns at its guard: no run of frames changes any particle, the
    buffer or the upload count. *)
Theorem waterfall_without_mesh (m : Trig) (deltas : list Q) (w : Waterfall) :
  waterMesh w = false -> waterfallRun m deltas w = w.
Proof.
  intros Hmesh. induction deltas as [|delta deltas IH]; [reflexivity|].
  cbn [waterfallRun foldl]. unfold waterfallFrame at 2. rewrite Hmesh. exact IH.
Qed.

Lemma waterfall_without_mesh_witness :
  waterMesh (waterfallInitial randomHalf 0 false) = false /\
  waterfallRun unitTrig [0.016; 0.1]%Q (waterfallInitial randomHalf 0 false)
  = waterfallInitial randomHalf 0 false.
Proof.
  assert (H : waterMesh (waterfallInitial randomHalf 0 false) = false) by reflexivity.
  exact (conj H (waterfall_without_mesh unitTrig [0.016; 0.1]%Q _ H)).
Defined.

(** ** Spray *)

Lemma createSpray_length (m : Trig) (rnd : nat -> Q) (k : nat) :
  length (fst (createSpray m rnd k)) = SPRAY_PARTICLES.
Proof. rewrite createSpray_stride. cbn [fst]. now rewrite length_fmap, length_seq. Qed.

Lemma createSpray_inRange (m : Trig) (rnd : nat -> Q) (k : nat) :
  (0 < PI m)%Q -> (forall i, 0 <= rnd i < 1)%Q ->
  Forall (sprayInRange m) (fst (createSpray m rnd k)).
Proof.
  intros Hpi Hrnd. apply arrayFrom_Forall. intros k'.
  unfold sprayInRange, newSprayParticle.
  cbn [fst baseTheta radius spraySpeed height sprayJitter].
  pose proof (Hrnd k'). pose proof (Hrnd (k' + 1)%nat). pose proof (Hrnd (k' + 2)%nat).
  pose proof (Hrnd (k' + 3)%nat). pose proof (Hrnd (k' + 4)%nat).
  repeat split; try lra; nra.
Qed.

(** X15. The spray pool is built from exactly five draws per particle:
    180 particles, 900 calls of [Math.random], and when the draws lie in
    [0, 1) every particle has its base angle between 0 and 2 pi, radius
    between 0.05 and 0.25, speed between 0.6 and 1 (ends included), height
    in [0, 0.5) and jitter in [0, 2). *)
Theorem createSpray_pool (m : Trig) (rnd : nat -> Q) (k : nat) :
  (0 < PI m)%Q ->
  (forall i, 0 <= rnd i < 1)%Q ->
  length (fst (createSpray m rnd k)) = 180%nat /\
  snd (createSpray m rnd k) = (k + 900)%nat /\
  Forall (sprayInRange m) (fst (createSpray m rnd k)).
Proof.
  intros Hpi Hrnd. split; [apply createSpray_length|]. split.
  - rewrite createSpray_stride. reflexivity.
  - now apply createSpray_inRange.
Qed.

Lemma createSpray_pool_witness :
  (0 < PI unitTrig)%Q /\
  (forall i : nat, 0 <= randomHalf i < 1)%Q /\
  length (fst (createSpray unitTrig randomHalf 2700)) = 180%nat /\
  snd (createSpray unitTrig randomHalf 2700) = 3600%nat /\
  Forall (sprayInRange unitTrig) (fst (createSpray unitTrig randomHalf 2700)).
Proof.
  assert (H0 : (0 < PI unitTrig)%Q) by reflexivity.
  assert (H1 : forall i : nat, (0 <= randomHalf i < 1)%Q)
    by (intros i; split; [discriminate | reflexivity]).
  exact (conj H0 (conj H1 (createSpray_pool unitTrig randomHalf 2700 H0 H1))).
Defined.

Lemma sprayTransform_bounds (m : Trig) (now : Q) (p : SprayParticle) :
  (0 <= now)%Q -> sprayInRange m p ->
  (0.04 <= tScale (sprayTransform m now p) <= 0.12 /\
   3.54 <= vy (tPosition (sprayTransform m now p)) <= 4.59)%Q.
Proof.
  intros Hnow (_ & _ & Hsp & Hh & Hj). unfold sprayTransform.
  cbn [tScale tPosition vy].
  assert (Ht : (0 <= now * 0.0006 * spraySpeed p + sprayJitter p)%Q) by nra.
  pose proof (jsRem_1_unit_interval _ Ht) as Hphase.
  set (phase := jsRem (now * 0.0006 * spraySpeed p + sprayJitter p) 1) in *.
  repeat split; lra.
Qed.

(** X16. One frame of the spray at clock reading [now >= 0], over a
    buffer with room for the pool: slot [i] receives the transform of
    particle [i], the buffer keeps its length, every scale written lies
    between 0.04 and 0.12 and every particle is drawn at a height between
    3.54 and 4.59 (ends included); without the mesh the buffer is left as
    it is. *)
Theorem spray_frame_written (m : Trig) (rnd : nat -> Q) (k : nat) (now : Q)
    (buf : list Transform) :
  (0 < PI m)%Q ->
  (forall i, 0 <= rnd i < 1)%Q ->
  (0 <= now)%Q ->
  (SPRAY_PARTICLES <= length buf)%nat ->
  let pool := fst (createSpray m rnd k) in
  let buf' := sprayFrame m now true pool buf in
  length buf' = length buf /\
  (forall i p, pool !! i = Some p -> buf' !! i = Some (sprayTransform m now p)) /\
  Forall (fun t => 0.04 <= tScale t <= 0.12 /\ 3.54 <= vy (tPosition t) <= 4.59)%Q
    (take SPRAY_PARTICLES buf') /\
  sprayFrame m now false pool buf = buf.
Proof.
  intros Hpi Hrnd Hnow Hlen pool buf'. subst buf'.
  assert (Hpool : length pool = SPRAY_PARTICLES) by apply createSpray_length.
  unfold sprayFrame. rewrite foldl_setMatrixAt_imap by lia.
  split; [|split; [|split]].
  - rewrite length_app, length_fmap, length_drop. lia.
  - intros i p Hp. rewrite lookup_app_l.
    + now rewrite list_lookup_fmap, Hp.
    + rewrite length_fmap. now apply lookup_lt_Some in Hp.
  - rewrite <- Hpool, take_app_length' by now rewrite length_fmap.
    apply Forall_fmap. eapply Forall_impl.
    + exact (createSpray_inRange m rnd k Hpi Hrnd).
    + intros p Hp. exact (sprayTransform_bounds m now p Hnow Hp).
  - reflexivity.
Qed.

Lemma spray_frame_written_witness :
  (0 < PI unitTrig)%Q /\
  (forall i : nat, 0 <= randomHalf i < 1)%Q /\
  (0 <= 16000)%Q /\
  (SPRAY_PARTICLES <= length (replicate 180 identityTransform))%nat /\
  let pool := fst (createSpray unitTrig randomHalf 2700) in
  let buf' := sprayFrame unitTrig 16000 true pool (replicate 180 identityTransform) in
  length buf' = length (replicate 180 identityTransform) /\
  (forall i p, pool !! i = Some p -> buf' !! i = Some (sprayTransform unitTrig 16000 p)) /\
  Forall (fun t => 0.04 <= tScale t <= 0.12 /\ 3.54 <= vy (tPosition t) <= 4.59)%Q
    (take SPRAY_PARTICLES buf') /\
  sprayFrame unitTrig 16000 false pool (replicate 180 identityTransform)
  = replicate 180 identityTransform.
Proof.
  assert (H0 : (0 < PI unitTrig)%Q) by reflexivity.
  assert (H1 : forall i : nat, (0 <= randomHalf i < 1)%Q)
    by (intros i; split; [discriminate | reflexivity]).
  assert (H2 : (0 <= 16000)%Q) by discriminate.
  assert (H3 : (SPRAY_PARTICLES <= length (replicate 180 identityTransform))%nat)
    by (rewrite length_replicate; reflexivity).
  exact (conj H0 (conj H1 (conj H2 (conj H3
    (spray_frame_written unitTrig randomHalf 2700 16000 _ H0 H1 H2 H3))))).
Defined.

(** ** Capture: configuration, logs, file names *)

Lemma string_length_app (s t : string) :
  String.length (s +:+ t) = (String.length s + String.length t)%nat.
Proof. induction s as [|a s IH]; simpl; [reflexivity|f_equal; exact IH]. Qed.

Lemma string_app_inj_r (t s1 s2 : string) : s1 +:+ t = s2 +:+ t -> s1 = s2.
Proof.
  revert s2. induction s1 as [|a s1 IH]; intros [|b s2] Heq;
    pose proof (f_equal String.length Heq) as Hlen;
    rewrite !string_length_app in Hlen; simpl in Heq, Hlen.
  - reflexivity.
  - lia.
  - lia.
  - injection Heq as -> Heq. f_equal. now apply IH.
Qed.

Lemma downloadName_inj (now1 now2 : Z) :
  downloadName now1 = downloadName now2 -> now1 = now2.
Proof.
  unfold downloadName. intros Heq.
  apply String.app_inj in Heq. apply string_app_inj_r in Heq.
  now apply pretty_Z_inj in Heq.
Qed.

(** X17. Whatever the live view looks like, the encoder is called on a
    drawing buffer of exactly 3200 x 4000 pixels at pixel density 1, with
    the camera aspect 0.8 and a projection computed from it, right after a
    frame drawn with that configuration; the outcome of [capture] depends
    on the encoder only through what it returns there. *)
Theorem capture_export_configuration (now : Z) (s : Stage) :
  canvasWidth (renderer (exportStage s)) = 3200 /\
  canvasHeight (renderer (exportStage s)) = 4000 /\
  pixelRatio (renderer (exportStage s)) = 1%Q /\
  (aspect (camera (exportStage s)) == 0.8)%Q /\
  projectionAspect (camera (exportStage s)) = aspect (camera (exportStage s)) /\
  last (frames (exportStage s)) = Some exportFrame /\
  (forall toDataURL toDataURL' : Stage -> option string,
     toDataURL (exportStage s) = toDataURL' (exportStage s) ->
     capture toDataURL now s = capture toDataURL' now s).
Proof.
  repeat split.
  - cbn [exportStage frames]. now rewrite last_app.
  - intros toDataURL toDataURL' Heq. now rewrite !capture_eq, Heq.
Qed.

(** X19. A capture that returns adds one download, named
    [prime-baby-moonfall-<now>.png] and carrying the URL the encoder
    returned; captures made at different clock readings give different
    file names. *)
Theorem capture_download_names :
  (forall (toDataURL : Stage -> option string) (now : Z) (s : Stage) (url : string),
     toDataURL (exportStage s) = Some url ->
     downloads (snd (capture toDataURL now s))
     = downloads s ++ [ {| href := url; download := downloadName now |} ]) /\
  (forall now1 now2, downloadName now1 = downloadName now2 <-> now1 = now2).
Proof.
  split.
  - intros toDataURL now s url Henc. now rewrite (capture_returns toDataURL now s url Henc).
  - intros now1 now2. split; [apply downloadName_inj|now intros ->].
Qed.

(** X20. Whether the encoder returns or throws, [capture] leaves the CSS
    size of the canvas alone and only appends to what was drawn and
    downloaded before. *)
Theorem capture_appends_only (toDataURL : Stage -> option string) (now : Z) (s : Stage) :
  let s' := snd (capture toDataURL now s) in
  styleWidth (renderer s') = styleWidth (renderer s) /\
  styleHeight (renderer s') = styleHeight (renderer s) /\
  frames s `prefix_of` frames s' /\
  downloads s `prefix_of` downloads s' /\
  (invalidations s <= invalidations s')%nat.
Proof.
  intros s'. subst s'. rewrite capture_eq.
  destruct (toDataURL (exportStage s)) as [url|]; cbn [snd].
  - split; [reflexivity|]. split; [reflexivity|]. split.
    + rewrite restoredStage_frames. now eexists.
    + split; [now eexists|]. cbn. lia.
  - split; [reflexivity|]. split; [reflexivity|]. split.
    + now eexists.
    + split; [exists []; now rewrite app_nil_r|]. cbn. lia.
Qed.

(** X21. A capture started from the configuration a failed capture left
    behind restores that configuration: after the encoder has thrown
    once, a later capture that returns leaves pixel density 1, size
    3200 x 4000 and aspect 3200/4000 in place. *)
Theorem capture_after_failure (toDataURL1 toDataURL2 : Stage -> option string)
    (now1 now2 : Z) (s : Stage) :
  toDataURL1 (exportStage s) = None ->
  let s1 := snd (capture toDataURL1 now1 s) in
  fst (capture toDataURL2 now2 s1) = Some tt ->
  let s2 := snd (capture toDataURL2 now2 s1) in
  pixelRatio (renderer s2) = 1%Q /\
  sizeWidth (renderer s2) = EXPORT_WIDTH /\
  sizeHeight (renderer s2) = EXPORT_HEIGHT /\
  aspect (camera s2) = (EXPORT_WIDTH / EXPORT_HEIGHT)%Q.
Proof.
  intros Hfail s1 Hok s2. subst s2 s1.
  rewrite (capture_throws toDataURL1 now1 s Hfail) in *. cbn [snd] in *.
  rewrite capture_outcome in Hok.
  destruct (toDataURL2 (exportStage (exportStage s))) as [url|] eqn:Henc;
    [|discriminate Hok].
  rewrite (capture_returns toDataURL2 now2 _ url Henc). cbn [snd fst].
  repeat split.
Qed.

Lemma capture_after_failure_witness :
  encoderThrows (exportStage liveStage) = None /\
  fst (capture encoderOk 1730000000001
         (snd (capture encoderThrows 1730000000000 liveStage))) = Some tt /\
  let s2 := snd (capture encoderOk 1730000000001
                   (snd (capture encoderThrows 1730000000000 liveStage))) in
  pixelRatio (renderer s2) = 1%Q /\
  sizeWidth (renderer s2) = EXPORT_WIDTH /\
  sizeHeight (renderer s2) = EXPORT_HEIGHT /\
  aspect (camera s2) = (EXPORT_WIDTH / EXPORT_HEIGHT)%Q.
Proof.
  assert (H1 : encoderThrows (exportStage liveStage) = None) by reflexivity.
  assert (H2 : fst (capture encoderOk 1730000000001
                      (snd (capture encoderThrows 1730000000000 liveStage))) = Some tt)
    by reflexivity.
  exact (conj H1 (conj H2
    (capture_after_failure encoderThrows encoderOk 1730000000000 1730000000001
       liveStage H1 H2))).
Defined.

(** ** The export button over many presses *)

Lemma click_idle (toDataURL : Stage -> option string) (now : Z) (a : App) :
  captureRef a = true -> isExporting a = false ->
  click toDataURL a now =
    {| stage := snd (capture toDataURL now (stage a));
       captureRef := true;
       isExporting := false |}.
Proof.
  intros Href Hidle. unfold click, press. cbn [fst snd].
  rewrite handleExport_starts by (exact Href || exact Hidle). reflexivity.
Qed.

(** X22. A series of exports, each started after the one before has
    finished, with an encoder that never throws: every press runs one
    capture, so the button ends idle, the live configuration is the one
    before the first press, two frames were drawn per press, and the
    downloads made are named after the clock readings, in order. *)
Theorem clicks_compose (toDataURL : Stage -> option string) (nows : list Z) (a : App) :
  captureRef a = true ->
  isExporting a = false ->
  (forall s, is_Some (toDataURL s)) ->
  let a' := clicks toDataURL nows a in
  captureRef a' = true /\
  isExporting a' = false /\
  snapshot (stage a') = snapshot (stage a) /\
  length (frames (stage a')) = (length (frames (stage a)) + 2 * length nows)%nat /\
  download <$> downloads (stage a')
  = (download <$> downloads (stage a)) ++ (downloadName <$> nows).
Proof.
  intros Href Hidle Henc a'. subst a'. revert a Href Hidle.
  induction nows as [|now nows IH]; intros a Href Hidle.
  - cbn. rewrite app_nil_r. repeat split; [assumption..|lia].
  - cbn [clicks foldl]. fold (clicks toDataURL nows (click toDataURL a now)).
    rewrite (click_idle toDataURL now a Href Hidle).
    destruct (Henc (exportStage (stage a))) as [url Hurl].
    rewrite (capture_returns toDataURL now (stage a) url Hurl). cbn [snd].
    match goal with |- context [clicks toDataURL nows ?b] =>
      destruct (IH b eq_refl eq_refl) as (Hr & Hi & Hs & Hf & Hd) end.
    cbn [stage] in Hs, Hf, Hd.
    split; [exact Hr|]. split; [exact Hi|]. split; [|split].
    + rewrite Hs. apply restoredStage_snapshot.
    + rewrite Hf, restoredStage_frames, length_app. cbn [length]. lia.
    + rewrite Hd. cbn [restoredStage downloads].
      rewrite fmap_app, <- app_assoc. reflexivity.
Qed.

Lemma clicks_compose_witness :
  captureRef idleApp = true /\
  isExporting idleApp = false /\
  (forall s, is_Some (encoderOk s)) /\
  let a' := clicks encoderOk [1730000000000; 1730000000500] idleApp in
  captureRef a' = true /\
  isExporting a' = false /\
  snapshot (stage a') = snapshot (stage idleApp) /\
  length (frames (stage a')) = (length (frames (stage idleApp)) + 2 * 2)%nat /\
  download <$> downloads (stage a')
  = (download <$> downloads (stage idleApp))
      ++ (downloadName <$> [1730000000000; 1730000000500]).
Proof.
  assert (H1 : captureRef idleApp = true) by reflexivity.
  assert (H2 : isExporting idleApp = false) by reflexivity.
  assert (H3 : forall s, is_Some (encoderOk s)) by (intros s; unfold encoderOk; eauto).
  exact (conj H1 (conj H2 (conj H3
    (clicks_compose encoderOk [1730000000000; 1730000000500] idleApp H1 H2 H3)))).
Defined.

(** X23. While the capture bridge is not mounted, or after its effect was
    cleaned up, the export button does nothing: whatever handlers are
    pressed and however often, no frame is drawn, nothing is downloaded
    and the in-progress flag is not touched. *)
Theorem export_unavailable (toDataURL : Stage -> option string)
    (presses : list (Handler * Z)) (a : App) :
  pressAll toDataURL presses (handleCaptureBridge false a) = handleCaptureBridge false a.
Proof.
  induction presses as [|[hd now] presses IH]; [reflexivity|].
  cbn [pressAll foldl]. fold (pressAll toDataURL presses).
  assert (Hpress : press toDataURL (handleCaptureBridge false a) (hd, now)
                   = handleCaptureBridge false a); [|now rewrite Hpress].
  unfold press, handleExport. cbn [fst snd handleCaptureBridge captureRef negb orb].
  reflexivity.
Qed.

(** ** Mist, uploads, and the size of a tick *)

(** X24. The opacity of the mist stays between 0.19 and 0.28: it starts
    at 0.28 and every frame sets it to 0.24 plus or minus at most 0.04, or
    leaves it alone when the mesh is missing or carries several
    materials. *)
Theorem mist_opacity_range (m : Trig) (nows : list Q) (mesh : bool) :
  (forall x, -1 <= sin m x <= 1)%Q ->
  (0.19 <= mistOpacity (mistRun m nows (mistInitial mesh)) <= 0.28)%Q.
Proof.
  intros Hsin.
  assert (Hinv : forall st, (0.19 <= mistOpacity st <= 0.28)%Q ->
                            (0.19 <= mistOpacity (mistRun m nows st) <= 0.28)%Q).
  { induction nows as [|now nows IH]; intros st Hst; [exact Hst|].
    cbn [mistRun foldl]. apply IH. unfold mistFrame.
    destruct (mistMesh st); cbn [negb]; [|exact Hst].
    destruct (mistMaterialArray st); [exact Hst|]. cbn [mistOpacity].
    pose proof (Hsin (now * 0.0006)%Q). lra. }
  apply Hinv. cbn. split; discriminate.
Qed.

Lemma mist_opacity_range_witness :
  (forall x, -1 <= sin unitTrig x <= 1)%Q /\
  (0.19 <= mistOpacity (mistRun unitTrig [0; 16; 33]%Q (mistInitial true)) <= 0.28)%Q.
Proof.
  assert (H : forall x, (-1 <= sin unitTrig x <= 1)%Q)
    by (intros x; split; discriminate).
  exact (conj H (mist_opacity_range unitTrig [0; 16; 33]%Q true H)).
Defined.

(** X25. With the mesh attached the buffer is flagged for upload once per
    frame, however many particles were written: after a run the count has
    grown by the number of frames. *)
Theorem waterfall_uploads_per_frame (m : Trig) (deltas : list Q) (w : Waterfall) :
  waterMesh w = true ->
  waterUploads (waterfallRun m deltas w) = (waterUploads w + length deltas)%nat.
Proof.
  revert w. induction deltas as [|delta deltas IH]; intros w Hmesh.
  - cbn. lia.
  - cbn [waterfallRun foldl]. fold (waterfallRun m deltas (waterfallFrame m delta w)).
    rewrite IH by (unfold waterfallFrame; now rewrite Hmesh).
    unfold waterfallFrame. rewrite Hmesh. cbn [waterUploads length]. lia.
Qed.

Lemma waterfall_uploads_witness :
  waterMesh tinyWaterfall = true /\
  waterUploads (waterfallRun unitTrig [0.016; 0.1; 0.016]%Q tinyWaterfall)
  = (waterUploads tinyWaterfall + 3)%nat.
Proof.
  assert (H : waterMesh tinyWaterfall = true) by reflexivity.
  exact (conj H (waterfall_uploads_per_frame unitTrig [0.016; 0.1; 0.016]%Q tinyWaterfall H)).
Defined.

(** X26. A tick moves progress forward by the frame time times the
    speed, less a whole number of laps: the new progress is
    [offset + delta * speed - laps] for a natural number [laps], and no lap
    is taken off exactly when the sum stays below 1. *)
Theorem advance_progress (delta : Q) (p : Particle) :
  (0 <= delta)%Q -> (0 <= offset p)%Q -> (0 <= speed p)%Q ->
  exists laps : Z,
    (0 <= laps)%Z /\
    (offset (advance delta p) == offset p + delta * speed p - inject_Z laps)%Q /\
    (laps = 0%Z <-> (offset p + delta * speed p < 1)%Q).
Proof.
  intros Hd Ho Hs. unfold advance. cbn [offset].
  assert (Hn : (0 <= offset p + delta * speed p)%Q).
  { assert (0 <= delta * speed p)%Q by (apply Qmult_le_0_compat; assumption). lra. }
  set (n := (offset p + delta * speed p)%Q) in *.
  exists (Qfloor n). split; [|split].
  - change 0%Z with (Qfloor 0). now apply Qfloor_resp_le.
  - now apply jsRem_1_frac.
  - pose proof (Qfloor_le n) as Hlo. pose proof (Qlt_floor n) as Hhi.
    rewrite inject_Z_plus in Hhi. change (inject_Z 1) with 1%Q in Hhi.
    split.
    + intros Hz. rewrite Hz in Hhi. change (inject_Z 0) with 0%Q in Hhi. lra.
    + intros Hlt. apply Qfloor_unique; change (inject_Z 0) with 0%Q; lra.
Qed.

Lemma advance_progress_witness :
  (0 <= 2)%Q /\ (0 <= offset (mkParticle 0.9 0.45 (-0.3)))%Q /\
  (0 <= speed (mkParticle 0.9 0.45 (-0.3)))%Q /\
  exists laps : Z,
    (0 <= laps)%Z /\
    (offset (advance 2 (mkParticle 0.9 0.45 (-0.3)))
     == offset (mkParticle 0.9 0.45 (-0.3)) + 2 * speed (mkParticle 0.9 0.45 (-0.3))
        - inject_Z laps)%Q /\
    (laps = 0%Z <->
     (offset (mkParticle 0.9 0.45 (-0.3)) + 2 * speed (mkParticle 0.9 0.45 (-0.3)) < 1)%Q).
Proof.
  assert (H1 : (0 <= 2)%Q) by discriminate.
  assert (H2 : (0 <= offset (mkParticle 0.9 0.45 (-0.3)))%Q) by discriminate.
  assert (H3 : (0 <= speed (mkParticle 0.9 0.45 (-0.3)))%Q) by discriminate.
  exact (conj H1 (conj H2 (conj H3
    (advance_progress 2 (mkParticle 0.9 0.45 (-0.3)) H1 H2 H3)))).
Defined.
